(** * ts-error-handling: the Result algebra, embedded and verified

    A shallow embedding of the two files that implement the Result type
    ([src/unnamed/part_005], the one that also carries [all], [any] and
    [partition], and [src/unnamed/part_006]) together with the interfaces of
    [src/types.ts], and of two helpers of the error page,
    [groupVendorFrames] and [escapeHtml].

    - TypeScript generics become Rocq polymorphism; the dynamically typed
      corners ([unknown], [error as E], [lastError as E]) use [JsValue].
    - A JavaScript function may read and write the world and may throw, so a
      callback is a function into [Eff St], a state-and-exception monad; a
      method that takes no callback and cannot touch the world is a plain
      function, into [Outcome] when it can throw.
    - [for ... of] loops that push onto a local array are recursive
      functions that carry the array as an accumulator.
    - An [async] function hands back a promise; a promise is modelled by
      what it settles to, and the order in which several promises settle is
      an explicit argument. *)

From Stdlib Require Import Ascii.
From stdpp Require Import base list strings pretty.

Set Default Proof Using "Type".

(** ** JavaScript values *)

Module JS.

(** The values that cross a dynamically typed boundary: primitives and
    [Error] objects.  [JsNumber n] is the Number whose value is the integer
    [n], for [n] a safe integer; [JsError m] is what [new Error(m)]
    builds. *)
Inductive JsValue : Type :=
| JsUndefined
| JsNull
| JsBoolean (b : bool)
| JsNumber (n : Z)
| JsStr (s : string)
| JsError (message : string).

#[global] Instance JsValue_eq_dec : EqDecision JsValue.
Proof. solve_decision. Defined.

(** [String(x)]: the conversion the template literals of the source go
    through. *)
Class Stringifiable (A : Type) := ToString : A → string.

#[global] Instance string_Stringifiable : Stringifiable string := λ s, s.
#[global] Instance bool_Stringifiable : Stringifiable bool :=
  λ b, if b then "true" else "false".
#[global] Instance Z_Stringifiable : Stringifiable Z := λ n, pretty n.

(** [Error.prototype.toString] with the default name: the name alone when
    the message is empty, else name, colon, space, message. *)
Definition Error_toString (message : string) : string :=
  if decide (message = "") then "Error" else "Error: " +:+ message.

#[global] Instance JsValue_Stringifiable : Stringifiable JsValue := λ v,
  match v with
  | JsUndefined => "undefined"
  | JsNull => "null"
  | JsBoolean b => ToString b
  | JsNumber n => ToString n
  | JsStr s => s
  | JsError m => Error_toString m
  end.

(** [v == null], the comparison behind [value != null]: loose equality
    with [null] holds for [null] and [undefined] and for nothing else; no
    coercion to boolean takes place. *)
Definition loosely_equals_null (v : JsValue) : bool :=
  match v with
  | JsUndefined | JsNull => true
  | _ => false
  end.

End JS.
Export JS.

(** ** Effects: world state and exceptions *)

(** How an evaluation ends: with a value, or with a thrown JavaScript
    value. *)
Inductive Outcome (A : Type) : Type :=
| Return (a : A)
| Throw (thrown : JsValue).
Arguments Return {A} a.
Arguments Throw {A} thrown.

(** A computation over a world of type [St]. *)
Definition Eff (St A : Type) : Type := St → Outcome A * St.

Section Eff.
Context {St : Type}.

Definition ret {A} (a : A) : Eff St A := λ s, (Return a, s).

Definition throw {A} (x : JsValue) : Eff St A := λ s, (Throw x, s).

Definition bind {A B} (m : Eff St A) (k : A → Eff St B) : Eff St B :=
  λ s, match m s with
       | (Return a, s') => k a s'
       | (Throw x, s') => (Throw x, s')
       end.

(** [try { body } catch (error) { handler }] *)
Definition try_catch {A} (body : Eff St A) (handler : JsValue → Eff St A)
  : Eff St A :=
  λ s, match body s with
       | (Return a, s') => (Return a, s')
       | (Throw x, s') => handler x s'
       end.

(** A function that neither touches the world nor throws. *)
Definition pure {A B} (f : A → B) : A → Eff St B := λ a, ret (f a).

End Eff.

Declare Scope eff_scope.
Delimit Scope eff_scope with eff.
Notation "x <- m ;; k" := (bind m (λ x, k))
  (at level 100, m at next level, right associativity) : eff_scope.
Open Scope eff_scope.

(** A test spy: [spy i f] behaves as [f] and records [i] in a call log kept
    beside the world. *)
Definition spy {St A} (i : nat) (m : Eff St A) : Eff (St * list nat) A :=
  λ '(s, log), let '(o, s') := m s in (o, (s', log ++ [i])).

(** ** The host: arrays and promises *)

(** [array.map(callback)]: the callback runs on each element from left to
    right; an exception ends the traversal. *)
Fixpoint Array_map {St A B} (callback : A → Eff St B) (array : list A)
  : Eff St (list B) :=
  match array with
  | [] => ret []
  | x :: rest =>
      y <- callback x ;; ys <- Array_map callback rest ;; ret (y :: ys)
  end.

Module Promise.

(** A promise, by what it settles to.  When it settles is not part of the
    promise: the places that wait for several promises take the order in
    which they settle as an argument. *)
Inductive Promise (A : Type) : Type :=
| Fulfilled (value : A)
| Rejected (reason : JsValue).
Arguments Fulfilled {A} value.
Arguments Rejected {A} reason.

(** The record [Promise.all] keeps while its input promises settle: one slot
    per input ([None] until that input has fulfilled), the count of inputs
    still awaited, and the settlement of the promise it returned, once
    there is one. *)
Record AllState (A : Type) : Type := mkAllState {
  values : list (option A);
  remaining : nat;
  settled : option (Promise (list A));
}.
Arguments mkAllState {A} values remaining settled.
Arguments values {A} _.
Arguments remaining {A} _.
Arguments settled {A} _.

(** The reaction to input [index] fulfilling with [x]: a second call for the
    same input does nothing; the first one fills the slot, and the last
    input to arrive resolves the returned promise with the slots, unless a
    rejection has settled it already. *)
Definition resolveElement {A} (index : nat) (x : A) (st : AllState A)
  : AllState A :=
  match values st !! index with
  | Some None =>
      let values' := <[index := Some x]> (values st) in
      let remaining' := pred (remaining st) in
      mkAllState values' remaining'
        match settled st with
        | Some p => Some p
        | None =>
            if decide (remaining' = 0)
            then Some (Fulfilled (omap id values'))
            else None
        end
  | _ => st
  end.

(** The reaction to an input rejecting: it settles the returned promise if
    nothing has settled it before. *)
Definition rejectElement {A} (reason : JsValue) (st : AllState A)
  : AllState A :=
  match settled st with
  | Some _ => st
  | None => mkAllState (values st) (remaining st) (Some (Rejected reason))
  end.

Definition Promise_all_start {A} (n : nat) : AllState A :=
  mkAllState (replicate n None) n
    (if decide (n = 0) then Some (Fulfilled []) else None).

Definition settle {A} (promises : list (Promise A)) (st : AllState A)
    (index : nat) : AllState A :=
  match promises !! index with
  | Some (Fulfilled x) => resolveElement index x st
  | Some (Rejected reason) => rejectElement reason st
  | None => st
  end.

(** [Promise.all(promises)], when the inputs settle in the order [order] (a
    list of indices into [promises]; an index that is absent never
    settles).  [None]: the returned promise stays pending. *)
Definition Promise_all {A} (promises : list (Promise A)) (order : list nat)
  : option (Promise (list A)) :=
  settled (foldl (settle promises) (Promise_all_start (length promises)) order).

End Promise.
Export Promise.

(** [await p] inside a function body: the value the promise fulfils with,
    or its rejection reason thrown. *)
Definition await {St A} (p : Promise A) : Eff St A :=
  λ s, (match p with
        | Fulfilled value => Return value
        | Rejected reason => Throw reason
        end, s).

(** The body of an [async] function, seen from the caller: the promise
    fulfils with what the body returns and rejects with what it throws. *)
Definition async {St A} (body : Eff St A) : St → Promise A * St :=
  λ s, match body s with
       | (Return a, s') => (Fulfilled a, s')
       | (Throw x, s') => (Rejected x, s')
       end.

(** ** src/types.ts *)

Module Types.

(** [type Result<T, E> = Ok<T, E> | Err<T, E>] *)
Inductive Result (T E : Type) : Type :=
| Ok (value : T)
| Err (error : E).
Arguments Ok {T E} value.
Arguments Err {T E} error.

Definition isOk {T E} (r : Result T E) : bool :=
  match r with Ok _ => true | Err _ => false end.

Definition isErr {T E} (r : Result T E) : bool :=
  match r with Ok _ => false | Err _ => true end.

(** The [_tag] discriminant. *)
Definition _tag {T E} (r : Result T E) : string :=
  match r with Ok _ => "Ok" | Err _ => "Err" end.

End Types.
Export Types.

(** ** Values of unknown type, for the type guard *)










(** ** src/unnamed/part_005: the two classes *)

Module Part005.

Definition ok {T E} (value : T) : Result T E := Ok value.

Definition err {T E} (error : E) : Result T E := Err error.

(** [class OkImpl]: every method takes [this.value] first. *)
Module OkImpl.
Section Methods.
Context {St T E : Type}.

Definition map {U} (value : T) (fn : T → Eff St U) : Eff St (Result U E) :=
  u <- fn value ;; ret (ok u).

Definition mapErr {F} (value : T) (_fn : E → Eff St F) : Eff St (Result T F) :=
  ret (ok value).

Definition andThen {U} (value : T) (fn : T → Eff St (Result U E))
  : Eff St (Result U E) :=
  fn value.

Definition orElse {F} (value : T) (_fn : E → Eff St (Result T F))
  : Eff St (Result T F) :=
  ret (ok value).

Definition match_ {U} (value : T) (patterns_ok : T → Eff St U)
    (patterns_err : E → Eff St U) : Eff St U :=
  patterns_ok value.

Definition unwrap (value : T) : Outcome T := Return value.

Definition unwrapOr (value _defaultValue : T) : T := value.

Definition unwrapOrElse (value : T) (_fn : E → Eff St T) : Eff St T :=
  ret value.

Definition expect (value : T) (_msg : string) : Outcome T := Return value.

End Methods.
End OkImpl.

(** [class ErrImpl]: every method takes [this.error] first. *)
Module ErrImpl.
Section Methods.
Context {St T E : Type}.

Definition map {U} (error : E) (_fn : T → Eff St U) : Eff St (Result U E) :=
  ret (err error).

Definition mapErr {F} (error : E) (fn : E → Eff St F) : Eff St (Result T F) :=
  f <- fn error ;; ret (err f).

Definition andThen {U} (error : E) (_fn : T → Eff St (Result U E))
  : Eff St (Result U E) :=
  ret (err error).

(** The handler runs inside [try]; what it throws is caught and a new
    [Error] is thrown in its place. *)
Definition orElse {F} (error : E) (fn : E → Eff St (Result T F))
  : Eff St (Result T F) :=
  try_catch (fn error)
    (λ caught, throw (JsError ("orElse handler threw: " +:+ ToString caught))).

Definition match_ {U} (error : E) (patterns_ok : T → Eff St U)
    (patterns_err : E → Eff St U) : Eff St U :=
  patterns_err error.

Definition unwrap `{Stringifiable E} (error : E) : Outcome T :=
  Throw (JsError ("Called unwrap on an Err value: " +:+ ToString error)).

Definition unwrapOr (error : E) (defaultValue : T) : T := defaultValue.

Definition unwrapOrElse (error : E) (fn : E → Eff St T) : Eff St T :=
  fn error.

Definition expect `{Stringifiable E} (error : E) (msg : string) : Outcome T :=
  Throw (JsError (msg +:+ ": " +:+ ToString error)).

End Methods.
End ErrImpl.

(** A method call on a [Result] goes to the class of the receiver. *)
Section Dispatch.
Context {St T E : Type}.

Definition Result_map {U} (r : Result T E) (fn : T → Eff St U)
  : Eff St (Result U E) :=
  match r with
  | Ok value => OkImpl.map value fn
  | Err error => ErrImpl.map error fn
  end.

Definition Result_mapErr {F} (r : Result T E) (fn : E → Eff St F)
  : Eff St (Result T F) :=
  match r with
  | Ok value => OkImpl.mapErr value fn
  | Err error => ErrImpl.mapErr error fn
  end.

Definition Result_andThen {U} (r : Result T E) (fn : T → Eff St (Result U E))
  : Eff St (Result U E) :=
  match r with
  | Ok value => OkImpl.andThen value fn
  | Err error => ErrImpl.andThen error fn
  end.

Definition Result_orElse {F} (r : Result T E) (fn : E → Eff St (Result T F))
  : Eff St (Result T F) :=
  match r with
  | Ok value => OkImpl.orElse value fn
  | Err error => ErrImpl.orElse error fn
  end.

Definition Result_unwrap `{Stringifiable E} (r : Result T E) : Outcome T :=
  match r with
  | Ok value => OkImpl.unwrap value
  | Err error => ErrImpl.unwrap error
  end.

Definition Result_expect `{Stringifiable E} (r : Result T E) (msg : string)
  : Outcome T :=
  match r with
  | Ok value => OkImpl.expect value msg
  | Err error => ErrImpl.expect error msg
  end.

End Dispatch.

(** *** The free functions of the file *)

(** [tryCatch(fn, errorHandler?)], lines 118-128.  The handler is optional;
    without one the caught value itself becomes the error (the source casts
    it with [as E]), so the error type is that of thrown values. *)
Definition tryCatch {St T} (fn : Eff St T)
    (errorHandler : option (JsValue → Eff St JsValue))
  : Eff St (Result T JsValue) :=
  try_catch (v <- fn ;; ret (ok v))
    (λ error,
       match errorHandler with
       | Some handler => e <- handler error ;; ret (err e)
       | None => ret (err error)
       end).

(** [combine(results)], lines 150-163: the loop, with the array [values] it
    pushes onto. *)
Fixpoint combine_loop {T E} (values : list T) (results : list (Result T E))
  : Result (list T) E :=
  match results with
  | [] => ok values
  | result :: rest =>
      match result with
      | Err error => err error
      | Ok value => combine_loop (values ++ [value]) rest
      end
  end.

Definition combine {T E} (results : list (Result T E)) : Result (list T) E :=
  combine_loop [] results.

(** [combineWithAllErrors(results)], lines 168-188: the loop fills [values]
    and [errors]; the test on [errors.length] follows it. *)
Fixpoint combineWithAllErrors_loop {T E} (values : list T) (errors : list E)
    (results : list (Result T E)) : list T * list E :=
  match results with
  | [] => (values, errors)
  | result :: rest =>
      match result with
      | Err error => combineWithAllErrors_loop values (errors ++ [error]) rest
      | Ok value => combineWithAllErrors_loop (values ++ [value]) errors rest
      end
  end.

Definition combineWithAllErrors {T E} (results : list (Result T E))
  : Result (list T) (list E) :=
  let '(values, errors) := combineWithAllErrors_loop [] [] results in
  if bool_decide (0 < length errors) then err errors else ok values.

(** [fromNullable(value, error)], lines 193-198: [value != null] is the
    negation of loose equality with [null]. *)
Definition fromNullable {E} (value : JsValue) (error : E)
  : Result JsValue E :=
  if negb (loosely_equals_null value) then ok value else err error.

(** [parallel(operations)], lines 244-250.  It is an [async] function: the
    caller gets a promise, and an exception inside the body rejects it.  [order] is the order in which the
    promises handed to [Promise.all] settle. *)
Definition parallel {St T E}
    (operations : list (Eff St (Promise (Result T E)))) (order : list nat)
  : St → option (Promise (Result (list T) E)) * St :=
  λ s,
    match Array_map (λ op, op) operations s with
    | (Throw x, s') => (Some (Rejected x), s')
    | (Return promises, s') =>
        match Promise_all promises order with
        | None => (None, s')
        | Some (Rejected reason) => (Some (Rejected reason), s')
        | Some (Fulfilled results) => (Some (Fulfilled (combine results)), s')
        end
    end.

(** [all(results)], lines 382-391. *)
Fixpoint all_loop {T E} (values : list T) (results : list (Result T E))
  : Result (list T) E :=
  match results with
  | [] => ok values
  | result :: rest =>
      match result with
      | Err error => err error
      | Ok value => all_loop (values ++ [value]) rest
      end
  end.

Definition all {T E} (results : list (Result T E)) : Result (list T) E :=
  all_loop [] results.

(** [any(results)], lines 396-407: [lastError] is declared without a value,
    so it starts as [undefined], and is cast to [E] at the end; the error
    type is therefore that of all JavaScript values. *)
Fixpoint any_loop {T} (lastError : JsValue)
    (results : list (Result T JsValue)) : Result T JsValue :=
  match results with
  | [] => err lastError
  | result :: rest =>
      match result with
      | Ok _ => result
      | Err error => any_loop error rest
      end
  end.

Definition any {T} (results : list (Result T JsValue)) : Result T JsValue :=
  any_loop JsUndefined results.

(** *** The remaining free functions of the file *)

Section MoreDispatch.
Context {St T E : Type}.

Definition Result_match {U} (r : Result T E) (patterns_ok : T → Eff St U)
    (patterns_err : E → Eff St U) : Eff St U :=
  match r with
  | Ok value => OkImpl.match_ value patterns_ok patterns_err
  | Err error => ErrImpl.match_ error patterns_ok patterns_err
  end.

Definition Result_unwrapOr (r : Result T E) (defaultValue : T) : T :=
  match r with
  | Ok value => OkImpl.unwrapOr value defaultValue
  | Err error => ErrImpl.unwrapOr error defaultValue
  end.

Definition Result_unwrapOrElse (r : Result T E) (fn : E → Eff St T)
  : Eff St T :=
  match r with
  | Ok value => OkImpl.unwrapOrElse value fn
  | Err error => ErrImpl.unwrapOrElse error fn
  end.

End MoreDispatch.

(** [tryCatchAsync(fn, errorHandler?)], lines 133-144: [await fn()] stands
    inside the [try], so a synchronous throw of [fn] and a rejection of its
    promise reach the same [catch]. *)
Definition tryCatchAsync {St T} (fn : Eff St (Promise T))
    (errorHandler : option (JsValue → Eff St JsValue))
  : St → Promise (Result T JsValue) * St :=
  async
    (try_catch (p <- fn ;; value <- await p ;; ret (ok value))
       (λ error,
          match errorHandler with
          | Some handler => e <- handler error ;; ret (err e)
          | None => ret (err error)
          end)).

(** [fromPromise(promise, errorHandler?)], lines 203-208. *)
Definition fromPromise {St T} (promise : Promise T)
    (errorHandler : option (JsValue → Eff St JsValue))
  : St → Promise (Result T JsValue) * St :=
  tryCatchAsync (ret promise) errorHandler.

(** [sequence(operations)], lines 225-239. *)
Fixpoint sequence_loop {St T E} (results : list T)
    (operations : list (Eff St (Promise (Result T E))))
  : Eff St (Result (list T) E) :=
  match operations with
  | [] => ret (ok results)
  | op :: rest =>
      p <- op ;;
      result <- await p ;;
      match result with
      | Err error => ret (err error)
      | Ok value => sequence_loop (results ++ [value]) rest
      end
  end.

Definition sequence {St T E}
    (operations : list (Eff St (Promise (Result T E))))
  : St → Promise (Result (list T) E) * St :=
  async (sequence_loop [] operations).

(** [traverse(items, fn)], lines 255-270. *)
Fixpoint traverse_loop {St T U E} (results : list U) (items : list T)
    (fn : T → Eff St (Result U E)) : Eff St (Result (list U) E) :=
  match items with
  | [] => ret (ok results)
  | item :: rest =>
      result <- fn item ;;
      match result with
      | Err error => ret (err error)
      | Ok value => traverse_loop (results ++ [value]) rest fn
      end
  end.

Definition traverse {St T U E} (items : list T)
    (fn : T → Eff St (Result U E)) : Eff St (Result (list U) E) :=
  traverse_loop [] items fn.

(** [traverseAsync(items, fn)], lines 275-290. *)
Fixpoint traverseAsync_loop {St T U E} (results : list U) (items : list T)
    (fn : T → Eff St (Promise (Result U E))) : Eff St (Result (list U) E) :=
  match items with
  | [] => ret (ok results)
  | item :: rest =>
      p <- fn item ;;
      result <- await p ;;
      match result with
      | Err error => ret (err error)
      | Ok value => traverseAsync_loop (results ++ [value]) rest fn
      end
  end.

Definition traverseAsync {St T U E} (items : list T)
    (fn : T → Eff St (Promise (Result U E)))
  : St → Promise (Result (list U) E) * St :=
  async (traverseAsync_loop [] items fn).

(** [flatten(result)], lines 295-300. *)
Definition flatten {T E} (result : Result (Result T E) E) : Result T E :=
  match result with
  | Err error => err error
  | Ok value => value
  end.


(** [swap(result)], lines 322-327. *)
Definition swap {T E} (result : Result T E) : Result E T :=
  match result with
  | Ok value => err value
  | Err error => ok error
  end.

(** [filter(result, predicate, error)], lines 332-341. *)
Definition filter {St T E} (result : Result T E)
    (predicate : T → Eff St bool) (error : E) : Eff St (Result T E) :=
  match result with
  | Err _ => ret result
  | Ok value => b <- predicate value ;; ret (if b then result else err error)
  end.

(** [unwrapOrThrow(result, mapError?)], lines 346-354. *)
Definition unwrapOrThrow {St T E} `{Stringifiable E} (result : Result T E)
    (mapError : option (E → Eff St JsValue)) : Eff St T :=
  match result with
  | Ok value => ret value
  | Err error =>
      match mapError with
      | Some mapError => x <- mapError error ;; throw x
      | None => throw (JsError (ToString error))
      end
  end.


(** [getOrElse(result, fn)], lines 372-377. *)
Definition getOrElse {St T E} (result : Result T E) (fn : E → Eff St T)
  : Eff St T :=
  match result with
  | Ok value => ret value
  | Err error => fn error
  end.

(** [partition(results)], lines 412-428. *)
Fixpoint partition_loop {T E} (oks : list T) (errs : list E)
    (results : list (Result T E)) : list T * list E :=
  match results with
  | [] => (oks, errs)
  | result :: rest =>
      match result with
      | Ok value => partition_loop (oks ++ [value]) errs rest
      | Err error => partition_loop oks (errs ++ [error]) rest
      end
  end.

Definition partition {T E} (results : list (Result T E)) : list T * list E :=
  partition_loop [] [] results.


End Part005.



(** ** src/unnamed/part_006: the two classes *)

Module Part006.

Definition ok {T E} (value : T) : Result T E := Ok value.

Definition err {T E} (error : E) : Result T E := Err error.

Module OkImpl.
Section Methods.
Context {St T E : Type}.

Definition map {U} (value : T) (fn : T → Eff St U) : Eff St (Result U E) :=
  u <- fn value ;; ret (ok u).

Definition mapErr {F} (value : T) (_fn : E → Eff St F) : Eff St (Result T F) :=
  ret (ok value).

Definition andThen {U} (value : T) (fn : T → Eff St (Result U E))
  : Eff St (Result U E) :=
  fn value.

Definition orElse {F} (value : T) (_fn : E → Eff St (Result T F))
  : Eff St (Result T F) :=
  ret (ok value).

Definition match_ {U} (value : T) (patterns_ok : T → Eff St U)
    (patterns_err : E → Eff St U) : Eff St U :=
  patterns_ok value.

Definition unwrap (value : T) : Outcome T := Return value.

Definition unwrapOr (value _defaultValue : T) : T := value.

Definition unwrapOrElse (value : T) (_fn : E → Eff St T) : Eff St T :=
  ret value.

Definition expect (value : T) (_msg : string) : Outcome T := Return value.

End Methods.
End OkImpl.

Module ErrImpl.
Section Methods.
Context {St T E : Type}.

Definition map {U} (error : E) (_fn : T → Eff St U) : Eff St (Result U E) :=
  ret (err error).

Definition mapErr {F} (error : E) (fn : E → Eff St F) : Eff St (Result T F) :=
  f <- fn error ;; ret (err f).

Definition andThen {U} (error : E) (_fn : T → Eff St (Result U E))
  : Eff St (Result U E) :=
  ret (err error).

(** Here the handler is called directly. *)
Definition orElse {F} (error : E) (fn : E → Eff St (Result T F))
  : Eff St (Result T F) :=
  fn error.

Definition match_ {U} (error : E) (patterns_ok : T → Eff St U)
    (patterns_err : E → Eff St U) : Eff St U :=
  patterns_err error.

Definition unwrap `{Stringifiable E} (error : E) : Outcome T :=
  Throw (JsError ("Called unwrap on an Err value: " +:+ ToString error)).

Definition unwrapOr (error : E) (defaultValue : T) : T := defaultValue.

Definition unwrapOrElse (error : E) (fn : E → Eff St T) : Eff St T :=
  fn error.

Definition expect `{Stringifiable E} (error : E) (msg : string) : Outcome T :=
  Throw (JsError (msg +:+ ": " +:+ ToString error)).

End Methods.
End ErrImpl.

Section Dispatch.
Context {St T E : Type}.

Definition Result_map {U} (r : Result T E) (fn : T → Eff St U)
  : Eff St (Result U E) :=
  match r with
  | Ok value => OkImpl.map value fn
  | Err error => ErrImpl.map error fn
  end.

Definition Result_mapErr {F} (r : Result T E) (fn : E → Eff St F)
  : Eff St (Result T F) :=
  match r with
  | Ok value => OkImpl.mapErr value fn
  | Err error => ErrImpl.mapErr error fn
  end.

Definition Result_andThen {U} (r : Result T E) (fn : T → Eff St (Result U E))
  : Eff St (Result U E) :=
  match r with
  | Ok value => OkImpl.andThen value fn
  | Err error => ErrImpl.andThen error fn
  end.

Definition Result_orElse {F} (r : Result T E) (fn : E → Eff St (Result T F))
  : Eff St (Result T F) :=
  match r with
  | Ok value => OkImpl.orElse value fn
  | Err error => ErrImpl.orElse error fn
  end.

Definition Result_unwrap `{Stringifiable E} (r : Result T E) : Outcome T :=
  match r with
  | Ok value => OkImpl.unwrap value
  | Err error => ErrImpl.unwrap error
  end.

Definition Result_expect `{Stringifiable E} (r : Result T E) (msg : string)
  : Outcome T :=
  match r with
  | Ok value => OkImpl.expect value msg
  | Err error => ErrImpl.expect error msg
  end.

End Dispatch.

(** *** The free functions of the file *)

(** [tryCatch], lines 110-120. *)
Definition tryCatch {St T} (fn : Eff St T)
    (errorHandler : option (JsValue → Eff St JsValue))
  : Eff St (Result T JsValue) :=
  try_catch (v <- fn ;; ret (ok v))
    (λ error,
       match errorHandler with
       | Some handler => e <- handler error ;; ret (err e)
       | None => ret (err error)
       end).

(** [tryCatchAsync], lines 125-136. *)
Definition tryCatchAsync {St T} (fn : Eff St (Promise T))
    (errorHandler : option (JsValue → Eff St JsValue))
  : St → Promise (Result T JsValue) * St :=
  async
    (try_catch (p <- fn ;; value <- await p ;; ret (ok value))
       (λ error,
          match errorHandler with
          | Some handler => e <- handler error ;; ret (err e)
          | None => ret (err error)
          end)).

(** [combine], lines 142-155. *)
Fixpoint combine_loop {T E} (values : list T) (results : list (Result T E))
  : Result (list T) E :=
  match results with
  | [] => ok values
  | result :: rest =>
      match result with
      | Err error => err error
      | Ok value => combine_loop (values ++ [value]) rest
      end
  end.

Definition combine {T E} (results : list (Result T E)) : Result (list T) E :=
  combine_loop [] results.

(** [combineWithAllErrors], lines 160-180. *)
Fixpoint combineWithAllErrors_loop {T E} (values : list T) (errors : list E)
    (results : list (Result T E)) : list T * list E :=
  match results with
  | [] => (values, errors)
  | result :: rest =>
      match result with
      | Err error => combineWithAllErrors_loop values (errors ++ [error]) rest
      | Ok value => combineWithAllErrors_loop (values ++ [value]) errors rest
      end
  end.

Definition combineWithAllErrors {T E} (results : list (Result T E))
  : Result (list T) (list E) :=
  let '(values, errors) := combineWithAllErrors_loop [] [] results in
  if bool_decide (0 < length errors) then err errors else ok values.

(** [fromNullable], lines 185-190. *)
Definition fromNullable {E} (value : JsValue) (error : E)
  : Result JsValue E :=
  if negb (loosely_equals_null value) then ok value else err error.

(** [fromPromise], lines 195-200. *)
Definition fromPromise {St T} (promise : Promise T)
    (errorHandler : option (JsValue → Eff St JsValue))
  : St → Promise (Result T JsValue) * St :=
  tryCatchAsync (ret promise) errorHandler.

(** [sequence], lines 217-231. *)
Fixpoint sequence_loop {St T E} (results : list T)
    (operations : list (Eff St (Promise (Result T E))))
  : Eff St (Result (list T) E) :=
  match operations with
  | [] => ret (ok results)
  | op :: rest =>
      p <- op ;;
      result <- await p ;;
      match result with
      | Err error => ret (err error)
      | Ok value => sequence_loop (results ++ [value]) rest
      end
  end.

Definition sequence {St T E}
    (operations : list (Eff St (Promise (Result T E))))
  : St → Promise (Result (list T) E) * St :=
  async (sequence_loop [] operations).

(** [parallel], lines 236-241. *)
Definition parallel {St T E}
    (operations : list (Eff St (Promise (Result T E)))) (order : list nat)
  : St → option (Promise (Result (list T) E)) * St :=
  λ s,
    match Array_map (λ op, op) operations s with
    | (Throw x, s') => (Some (Rejected x), s')
    | (Return promises, s') =>
        match Promise_all promises order with
        | None => (None, s')
        | Some (Rejected reason) => (Some (Rejected reason), s')
        | Some (Fulfilled results) => (Some (Fulfilled (combine results)), s')
        end
    end.

(** [traverse], lines 246-261. *)
Fixpoint traverse_loop {St T U E} (results : list U) (items : list T)
    (fn : T → Eff St (Result U E)) : Eff St (Result (list U) E) :=
  match items with
  | [] => ret (ok results)
  | item :: rest =>
      result <- fn item ;;
      match result with
      | Err error => ret (err error)
      | Ok value => traverse_loop (results ++ [value]) rest fn
      end
  end.

Definition traverse {St T U E} (items : list T)
    (fn : T → Eff St (Result U E)) : Eff St (Result (list U) E) :=
  traverse_loop [] items fn.

(** [traverseAsync], lines 266-281. *)
Fixpoint traverseAsync_loop {St T U E} (results : list U) (items : list T)
    (fn : T → Eff St (Promise (Result U E))) : Eff St (Result (list U) E) :=
  match items with
  | [] => ret (ok results)
  | item :: rest =>
      p <- fn item ;;
      result <- await p ;;
      match result with
      | Err error => ret (err error)
      | Ok value => traverseAsync_loop (results ++ [value]) rest fn
      end
  end.

Definition traverseAsync {St T U E} (items : list T)
    (fn : T → Eff St (Promise (Result U E)))
  : St → Promise (Result (list U) E) * St :=
  async (traverseAsync_loop [] items fn).

End Part006.


(** ** The error page: two helpers *)

Module ErrorPage.

(** [interface CodeSnippet] and [interface StackFrame] of
    [src/error-page/types.ts]; an optional field is an [option]. *)
Record CodeSnippet : Type := {
  startLine : Z;
  lines : list (Z * string * bool);
}.

Record StackFrame : Type := {
  file : string;
  line : Z;
  column : option Z;
  function_ : option string;
  method : option string;
  isApp : bool;
  isVendor : bool;
  codeSnippet : option CodeSnippet;
}.

(** An element of the array [groupVendorFrames] returns: a frame, or the
    object [{ isVendorGroup: true, count, frames }]. *)
Inductive StackItem : Type :=
| SingleFrame (frame : StackFrame)
| VendorGroup (count : nat) (frames : list StackFrame).

(** [groupVendorFrames(frames)], src/unnamed/part_007 lines 219-247: the
    loop, with the arrays [result] and [vendorGroup] it works on, and the
    test that follows it. *)
Fixpoint groupVendorFrames_loop (result : list StackItem)
    (vendorGroup : list StackFrame) (frames : list StackFrame)
  : list StackItem * list StackFrame :=
  match frames with
  | [] => (result, vendorGroup)
  | frame :: rest =>
      if isVendor frame
      then groupVendorFrames_loop result (vendorGroup ++ [frame]) rest
      else
        let result :=
          if bool_decide (0 < length vendorGroup)
          then result ++ [VendorGroup (length vendorGroup) vendorGroup]
          else result in
        groupVendorFrames_loop (result ++ [SingleFrame frame]) [] rest
  end.

Definition groupVendorFrames (frames : list StackFrame) : list StackItem :=
  let '(result, vendorGroup) := groupVendorFrames_loop [] [] frames in
  if bool_decide (0 < length vendorGroup)
  then result ++ [VendorGroup (length vendorGroup) vendorGroup]
  else result.

(** [str.replace(/c/g, replacement)] for a single literal character [c]
    and a replacement without [$]; a string is read as the sequence of its
    characters. *)
Fixpoint replace_all (c : ascii) (replacement : string) (str : string)
  : string :=
  match str with
  | EmptyString => EmptyString
  | String a rest =>
      if Ascii.eqb a c
      then replacement +:+ replace_all c replacement rest
      else String a (replace_all c replacement rest)
  end.

(** [escapeHtml(str)], src/error-page/types.ts lines 176-183: five
    replacements, one after the other.  The fourth character is the double
    quote, character 34. *)
Definition escapeHtml (str : string) : string :=
  replace_all "'"%char "&#039;"
    (replace_all "034"%char "&quot;"
       (replace_all ">"%char "&gt;"
          (replace_all "<"%char "&lt;"
             (replace_all "&"%char "&amp;" str)))).

End ErrorPage.

(** ** Vocabulary of the specification *)

(** The error payloads of a list of Results, in the order met. *)
Definition error_payloads {T E} (results : list (Result T E)) : list E :=
  omap (λ r, match r with Err e => Some e | Ok _ => None end) results.

(** The success payloads of a list of Results, in the order met. *)
Definition ok_payloads {T E} (results : list (Result T E)) : list T :=
  omap (λ r, match r with Ok v => Some v | Err _ => None end) results.

(** The slots of [Promise.all] that are still empty. *)
Fixpoint count_empty {A} (slots : list (option A)) : nat :=
  match slots with
  | [] => 0
  | None :: slots => S (count_empty slots)
  | Some _ :: slots => count_empty slots
  end.

(** What holds of the record of [Promise.all] while inputs that fulfil with
    the values [vs] arrive: a filled slot holds the value of its input,
    [remaining] counts the empty slots, and the returned promise is settled
    exactly when no slot is empty, with the slots for its value. *)
Definition all_inv {A} (vs : list A) (st : AllState A) : Prop :=
  length (values st) = length vs ∧
  (∀ i x, values st !! i = Some (Some x) → vs !! i = Some x) ∧
  remaining st = count_empty (values st) ∧
  settled st =
    if decide (remaining st = 0)
    then Some (Fulfilled (omap id (values st)))
    else None.

(** Slot [i] of the record holds a value. *)
Definition filled {A} (i : nat) (st : AllState A) : Prop :=
  ∃ x, values st !! i = Some (Some x).

(** [invoked_each_once ops s rs s']: calling the operations one after the
    other in index order, each one once, from the world [s], hands back
    promises that fulfil with the Results [rs], and leaves the world
    [s']. *)
Inductive invoked_each_once {St R : Type}
  : list (Eff St (Promise R)) → St → list R → St → Prop :=
| invoked_nil s : invoked_each_once [] s [] s
| invoked_cons op ops s r s1 rs s' :
    op s = (Return (Fulfilled r), s1) →
    invoked_each_once ops s1 rs s' →
    invoked_each_once (op :: ops) s (r :: rs) s'.

(** An operation that counts its calls in the world and whose promise
    fulfils with [r]. *)
Definition counting_op {T E} (r : Result T E)
  : Eff nat (Promise (Result T E)) :=
  λ calls, (Return (Fulfilled r), S calls).

(** [applied_each_ok fn items s us s']: calling [fn] on the items one after
    the other from the world [s] returns [Ok] each time, with the payloads
    [us], and leaves the world [s']. *)
Inductive applied_each_ok {St T U E : Type} (fn : T → Eff St (Result U E))
  : list T → St → list U → St → Prop :=
| applied_nil s : applied_each_ok fn [] s [] s
| applied_cons item items s u s1 us s' :
    fn item s = (Return (Ok u), s1) →
    applied_each_ok fn items s1 us s' →
    applied_each_ok fn (item :: items) s (u :: us) s'.

(** The reason [Promise.all] rejects with: that of the first promise of the
    settlement order that rejects, if there is one. *)
Fixpoint first_rejection {A} (promises : list (Promise A)) (order : list nat)
  : option JsValue :=
  match order with
  | [] => None
  | i :: order =>
      match promises !! i with
      | Some (Rejected reason) => Some reason
      | _ => first_rejection promises order
      end
  end.

(** The frames an item of the grouped list stands for. *)
Definition item_frames (item : ErrorPage.StackItem) : list ErrorPage.StackFrame :=
  match item with
  | ErrorPage.SingleFrame frame => [frame]
  | ErrorPage.VendorGroup _ frames => frames
  end.

(** An item of the grouped list is as it should be: a single frame is not
    a vendor frame; a group is not empty, holds vendor frames only and
    carries their number. *)
Definition item_ok (item : ErrorPage.StackItem) : Prop :=
  match item with
  | ErrorPage.SingleFrame frame => ErrorPage.isVendor frame = false
  | ErrorPage.VendorGroup count frames =>
      frames ≠ [] ∧ count = length frames ∧
      Forall (λ f, ErrorPage.isVendor f = true) frames
  end.

Definition is_group (item : ErrorPage.StackItem) : bool :=
  match item with
  | ErrorPage.SingleFrame _ => false
  | ErrorPage.VendorGroup _ _ => true
  end.

(** No group stands right after a group; [after_group] says whether the
    list follows one. *)
Fixpoint groups_apart (after_group : bool) (items : list ErrorPage.StackItem)
  : bool :=
  match items with
  | [] => true
  | item :: rest =>
      negb (after_group && is_group item) && groups_apart (is_group item) rest
  end.

(** Whether a list read after [after_group] ends in a group. *)
Fixpoint ends_in_group (after_group : bool) (items : list ErrorPage.StackItem)
  : bool :=
  match items with
  | [] => after_group
  | item :: rest => ends_in_group (is_group item) rest
  end.

(** What [escapeHtml] does to one character. *)
Definition escape_char (a : ascii) : string :=
  if Ascii.eqb a "&"%char then "&amp;"
  else if Ascii.eqb a "<"%char then "&lt;"
  else if Ascii.eqb a ">"%char then "&gt;"
  else if Ascii.eqb a "034"%char then "&quot;"
  else if Ascii.eqb a "'"%char then "&#039;"
  else String a EmptyString.

Fixpoint escape_each (str : string) : string :=
  match str with
  | EmptyString => EmptyString
  | String a rest => escape_char a +:+ escape_each rest
  end.

(** Whether the character [c] occurs in [str]. *)
Fixpoint occurs (c : ascii) (str : string) : bool :=
  match str with
  | EmptyString => false
  | String a rest => Ascii.eqb a c || occurs c rest
  end.

(** * Properties *)

(** ** The functor and monad laws *)

(** C2. Functor and monad laws, up to structural equality of Results, in
    both files: mapping the identity gives the Result back; mapping [f] and
    then [g] is mapping their composition, for [f] and [g] pure; binding
    [ok a] to [f] is [f a] itself, whatever [f] does; binding to [ok] gives
    the Result back. *)
Theorem functor_and_monad_laws :
  ∀ (St T U V E : Type) (r : Result T E) (a : T)
    (f : T → U) (g : U → V) (k : T → Eff St (Result U E)) (s : St),
    (* identity *)
    Part005.Result_map r (pure (λ x, x)) s = (Return r, s) ∧
    Part006.Result_map r (pure (λ x, x)) s = (Return r, s) ∧
    (* composition *)
    (r1 <- Part005.Result_map r (pure f) ;; Part005.Result_map r1 (pure g)) s
      = Part005.Result_map r (pure (λ x, g (f x))) s ∧
    (r1 <- Part006.Result_map r (pure f) ;; Part006.Result_map r1 (pure g)) s
      = Part006.Result_map r (pure (λ x, g (f x))) s ∧
    (* left identity *)
    Part005.Result_andThen (Part005.ok a) k s = k a s ∧
    Part006.Result_andThen (Part006.ok a) k s = k a s ∧
    (* right identity *)
    Part005.Result_andThen r (pure Part005.ok) s = (Return r, s) ∧
    Part006.Result_andThen r (pure Part006.ok) s = (Return r, s).
Proof.
  intros St T U V E r a f g k s.
  repeat split; try reflexivity; destruct r; reflexivity.
Qed.

(** ** Handlers of the other variant are never called *)

(** C3. On an [Err], [andThen] and [map] return the [Err] with its payload
    and leave the world as it was, whatever the handler would have done:
    the handler is not run.  On an [Ok], [mapErr] and [orElse] do the same
    with the [Ok].  This holds in both files.  With a spy for a handler,
    the call log stays as it was. *)
Theorem foreign_handler_not_invoked :
  ∀ (St T U E F : Type) (e : E) (v : T)
    (bindfn : T → Eff St (Result U E)) (mapfn : T → Eff St U)
    (errfn : E → Eff St F) (elsefn : E → Eff St (Result T F))
    (s : St) (log : list nat),
    Part005.Result_andThen (Part005.err e) bindfn s = (Return (Err e), s) ∧
    Part005.Result_map (Part005.err e) mapfn s = (Return (Err e), s) ∧
    Part005.Result_mapErr (Part005.ok v) errfn s = (Return (Ok v), s) ∧
    Part005.Result_orElse (Part005.ok v) elsefn s = (Return (Ok v), s) ∧
    Part006.Result_andThen (Part006.err e) bindfn s = (Return (Err e), s) ∧
    Part006.Result_map (Part006.err e) mapfn s = (Return (Err e), s) ∧
    Part006.Result_mapErr (Part006.ok v) errfn s = (Return (Ok v), s) ∧
    Part006.Result_orElse (Part006.ok v) elsefn s = (Return (Ok v), s) ∧
    Part005.Result_andThen (Part005.err e) (λ x, spy 0 (bindfn x)) (s, log)
      = (Return (Err e), (s, log)) ∧
    Part005.Result_map (Part005.err e) (λ x, spy 0 (mapfn x)) (s, log)
      = (Return (Err e), (s, log)) ∧
    Part005.Result_mapErr (Part005.ok v) (λ x, spy 0 (errfn x)) (s, log)
      = (Return (Ok v), (s, log)) ∧
    Part005.Result_orElse (Part005.ok v) (λ x, spy 0 (elsefn x)) (s, log)
      = (Return (Ok v), (s, log)).
Proof.
  intros. repeat split.
Qed.

(** The spy does record a handler that is called: [ok(v).map(spy)] logs the
    call. *)
Example spy_records_own_variant :
  Part005.Result_map (E := string) (Part005.ok 1%Z)
    (λ x, spy 7 (St := unit) (ret (x + 1)%Z)) (tt, [])
  = (Return (Ok 2%Z), (tt, [7])).
Proof. reflexivity. Qed.

(** ** unwrap and expect *)

(** C4, amended. On an [Err] carrying [e], in both files, [unwrap] throws an
    [Error] whose message is a fixed prefix followed by [String(e)], and
    [expect(msg)] throws an [Error] whose message is [msg], then a colon and
    a space, then [String(e)].  On an [Ok] carrying [v] both return [v]. *)
Theorem unwrap_expect_messages :
  ∀ (T E : Type) (SE : Stringifiable E) (e : E) (v : T) (msg : string),
    Part005.Result_unwrap (T := T) (Part005.err e)
      = Throw (JsError ("Called unwrap on an Err value: " +:+ ToString e)) ∧
    Part005.Result_expect (T := T) (Part005.err e) msg
      = Throw (JsError (msg +:+ ": " +:+ ToString e)) ∧
    Part006.Result_unwrap (T := T) (Part006.err e)
      = Throw (JsError ("Called unwrap on an Err value: " +:+ ToString e)) ∧
    Part006.Result_expect (T := T) (Part006.err e) msg
      = Throw (JsError (msg +:+ ": " +:+ ToString e)) ∧
    Part005.Result_unwrap (E := E) (Part005.ok v) = Return v ∧
    Part005.Result_expect (E := E) (Part005.ok v) msg = Return v ∧
    Part006.Result_unwrap (E := E) (Part006.ok v) = Return v ∧
    Part006.Result_expect (E := E) (Part006.ok v) msg = Return v.
Proof.
  intros. repeat split.
Qed.

(** C4 as stated fails: the message of [expect] is not the caller's message
    directly followed by the stringified error; [err('boom').expect('Operation
    failed')] throws the message [Operation failed: boom]. *)
Lemma expect_message_not_plain_concatenation :
  Part005.Result_expect (T := Z) (Part005.err "boom") "Operation failed"
    = Throw (JsError "Operation failed: boom") ∧
  Part005.Result_expect (T := Z) (Part005.err "boom") "Operation failed"
    ≠ Throw (JsError ("Operation failed" +:+ ToString "boom")) ∧
  Part006.Result_expect (T := Z) (Part006.err "boom") "Operation failed"
    ≠ Throw (JsError ("Operation failed" +:+ ToString "boom")).
Proof.
  split; [reflexivity | split; vm_compute; discriminate].
Qed.

(** ** tryCatch *)

(** C5, amended. [tryCatch(fn, errorHandler)] returns [Ok] of what [fn]
    returns; when [fn] throws [x] it returns [Err] of what the handler
    returns for [x], or [Err x] when there is no handler.  The only
    exception that leaves [tryCatch] is one thrown by the handler itself. *)
Theorem tryCatch_outcomes :
  ∀ (St T : Type) (fn : Eff St T)
    (errorHandler : option (JsValue → Eff St JsValue)) (s : St),
    (∀ v s', fn s = (Return v, s') →
       Part005.tryCatch fn errorHandler s = (Return (Ok v), s')) ∧
    (∀ x s' handler e s'',
       fn s = (Throw x, s') → errorHandler = Some handler →
       handler x s' = (Return e, s'') →
       Part005.tryCatch fn errorHandler s = (Return (Err e), s'')) ∧
    (∀ x s', fn s = (Throw x, s') → errorHandler = None →
       Part005.tryCatch fn errorHandler s = (Return (Err x), s')) ∧
    (∀ y s'', Part005.tryCatch fn errorHandler s = (Throw y, s'') →
       ∃ handler x s',
         errorHandler = Some handler ∧ fn s = (Throw x, s') ∧
         handler x s' = (Throw y, s'')).
Proof.
  intros St T fn errorHandler s.
  unfold Part005.tryCatch, try_catch, bind, ret.
  split; [| split; [| split]].
  - intros v s' Hfn. now rewrite Hfn.
  - intros x s' handler e s'' Hfn -> Hh. now rewrite Hfn, Hh.
  - intros x s' Hfn ->. now rewrite Hfn.
  - intros y s''. destruct (fn s) as [[v | x] s'] eqn:Hfn; [discriminate |].
    destruct errorHandler as [handler |]; [| discriminate].
    destruct (handler x s') as [[e | y'] t] eqn:Hh; [discriminate |].
    intros [= -> ->]. exists handler, x, s'. auto.
Qed.

Lemma tryCatch_outcomes_witness :
  Part005.tryCatch (St := unit) (T := Z) (throw (JsStr "boom"))
    (Some (λ x, ret (JsStr ("handled: " +:+ ToString x)))) tt
  = (Return (Err (JsStr "handled: boom")), tt).
Proof.
  refine (proj1 (proj2 (tryCatch_outcomes unit Z _ _ tt))
            (JsStr "boom") tt _ _ tt eq_refl eq_refl eq_refl).
Defined.

(** C5 as stated fails: an exception does leave [tryCatch] when the handler
    throws. *)
Lemma tryCatch_handler_exception_escapes :
  Part005.tryCatch (St := unit) (T := Z) (throw (JsStr "first"))
    (Some (λ _, throw (JsStr "second"))) tt
  = (Throw (JsStr "second"), tt).
Proof. reflexivity. Qed.

(** ** orElse on an Err *)

(** C7, amended. On an [Err] carrying [e], [orElse(fn)] returns what
    [fn(e)] returns, in both files.  When [fn] throws [x], the file
    part_006 lets [x] through as it is, and the file part_005 throws a new
    [Error] whose message is a fixed prefix followed by [String(x)]. *)
Theorem orElse_on_Err :
  ∀ (St T E F : Type) (e : E) (fn : E → Eff St (Result T F)) (s : St),
    Part006.Result_orElse (Part006.err e) fn s = fn e s ∧
    Part005.Result_orElse (Part005.err e) fn s =
      match fn e s with
      | (Return r, s') => (Return r, s')
      | (Throw x, s') =>
          (Throw (JsError ("orElse handler threw: " +:+ ToString x)), s')
      end.
Proof.
  intros. split; reflexivity.
Qed.

(** C7 as stated fails: with a handler that throws, part_005 does not let
    the handler's exception through, and the two files differ. *)
Lemma orElse_files_differ_when_handler_throws :
  let fn : string → Eff unit (Result Z string) := λ _, throw (JsStr "boom") in
  Part005.Result_orElse (Part005.err "e") fn tt
    = (Throw (JsError "orElse handler threw: boom"), tt) ∧
  Part006.Result_orElse (Part006.err "e") fn tt = (Throw (JsStr "boom"), tt) ∧
  Part005.Result_orElse (Part005.err "e") fn tt ≠ fn "e" tt ∧
  Part005.Result_orElse (Part005.err "e") fn tt
    ≠ Part006.Result_orElse (Part006.err "e") fn tt.
Proof.
  cbv zeta. repeat split; vm_compute; discriminate.
Qed.

(** ** fromNullable *)

(** C9. [fromNullable(v, e)] is [Ok v] exactly when [v] is neither [null]
    nor [undefined], and [Err e] when it is one of them; zero, [false] and
    the empty string are kept as [Ok] payloads. *)
Theorem fromNullable_only_null_and_undefined :
  ∀ (E : Type) (v : JsValue) (e : E),
    (Part005.fromNullable v e = Ok v ↔ v ≠ JsNull ∧ v ≠ JsUndefined) ∧
    (Part005.fromNullable v e = Err e ↔ v = JsNull ∨ v = JsUndefined) ∧
    Part005.fromNullable (JsNumber 0) e = Ok (JsNumber 0) ∧
    Part005.fromNullable (JsBoolean false) e = Ok (JsBoolean false) ∧
    Part005.fromNullable (JsStr "") e = Ok (JsStr "") ∧
    Part005.fromNullable JsNull e = Err e ∧
    Part005.fromNullable JsUndefined e = Err e.
Proof.
  intros E v e. repeat split; try reflexivity.
  - intros ->. discriminate H.
  - intros ->. discriminate H.
  - intros [Hn Hu]. destruct v; try reflexivity; congruence.
  - destruct v; try discriminate; auto.
  - intros [-> | ->]; reflexivity.
Qed.

(** ** Aggregators *)

Lemma combine_loop_all_ok {T E} (vs acc : list T) :
  Part005.combine_loop (E := E) acc (Ok <$> vs) = Ok (acc ++ vs).
Proof.
  revert acc. induction vs as [| v vs IH]; intros acc; simpl.
  - now rewrite app_nil_r.
  - rewrite IH, <- app_assoc. reflexivity.
Qed.

Lemma combine_loop_first_err {T E} (vs acc : list T) (e : E) rest :
  Part005.combine_loop acc ((Ok <$> vs) ++ Err e :: rest) = Err e.
Proof.
  revert acc. induction vs as [| v vs IH]; intros acc; simpl; [reflexivity |].
  apply IH.
Qed.

(** Every list of Results is all [Ok], or has a first [Err] after a run of
    [Ok]s. *)
Lemma first_err_decomposition {T E} (rs : list (Result T E)) :
  (∃ vs, rs = Ok <$> vs) ∨
  (∃ vs e rest, rs = (Ok <$> vs) ++ Err e :: rest).
Proof.
  induction rs as [| [v | e] rs IH].
  - left. now exists [].
  - destruct IH as [[vs ->] | (vs & e & rest & ->)].
    + left. now exists (v :: vs).
    + right. now exists (v :: vs), e, rest.
  - right. now exists [], e, rs.
Qed.

Lemma combineWithAllErrors_loop_spec {T E} (rs : list (Result T E)) vals errs :
  Part005.combineWithAllErrors_loop vals errs rs
  = (vals ++ ok_payloads rs, errs ++ error_payloads rs).
Proof.
  revert vals errs. induction rs as [| [v | e] rs IH]; intros vals errs; simpl.
  - now rewrite !app_nil_r.
  - rewrite IH, <- app_assoc. reflexivity.
  - rewrite IH, <- app_assoc. reflexivity.
Qed.

Lemma payloads_of_oks {T E} (vs : list T) :
  ok_payloads (E := E) (Ok <$> vs) = vs ∧ error_payloads (E := E) (Ok <$> vs) = [].
Proof.
  induction vs as [| v vs [IH1 IH2]]; [split; reflexivity |].
  split; simpl; [unfold ok_payloads in IH1; simpl; now f_equal | exact IH2].
Qed.

Lemma error_payloads_app {T E} (l1 l2 : list (Result T E)) :
  error_payloads (l1 ++ l2) = error_payloads l1 ++ error_payloads l2.
Proof.
  induction l1 as [| [v | e] l1 IH]; simpl; [reflexivity | exact IH |].
  unfold error_payloads in *. simpl. now f_equal.
Qed.

(** C1. [combine] gives [Ok] of all payloads in input order when every
    element is [Ok] (so [Ok []] on the empty input), and the error of the
    first [Err] otherwise, whatever follows that element.
    [combineWithAllErrors] gives [Err] of all error payloads in the order
    met as soon as there is one [Err], and [Ok] of all payloads otherwise.
    The two shapes of input are the only ones. *)
Theorem combine_and_combineWithAllErrors :
  ∀ (T E : Type) (vs : list T) (e : E) (rest pre post rs : list (Result T E)),
    Part005.combine (E := E) (Ok <$> vs) = Ok vs ∧
    Part005.combine (T := T) (E := E) [] = Ok [] ∧
    Part005.combine ((Ok <$> vs) ++ Err e :: rest) = Err e ∧
    Part005.combineWithAllErrors (E := E) (Ok <$> vs) = Ok vs ∧
    Part005.combineWithAllErrors (pre ++ Err e :: post)
      = Err (error_payloads pre ++ e :: error_payloads post) ∧
    ((∃ ws, rs = Ok <$> ws) ∨ (∃ ws e' rest', rs = (Ok <$> ws) ++ Err e' :: rest')) ∧
    Part005.combine [Ok (JsNumber 1); Err (JsStr "a"); Err (JsStr "b")]
      = Err (JsStr "a") ∧
    Part005.combineWithAllErrors [Ok (JsNumber 1); Err (JsStr "a"); Err (JsStr "b")]
      = Err [JsStr "a"; JsStr "b"].
Proof.
  intros T E vs e rest pre post rs.
  split; [apply (combine_loop_all_ok vs []) |].
  split; [reflexivity |].
  split; [apply combine_loop_first_err |].
  split.
  { unfold Part005.combineWithAllErrors.
    rewrite combineWithAllErrors_loop_spec.
    destruct (payloads_of_oks (E := E) vs) as [-> ->]. reflexivity. }
  split.
  { unfold Part005.combineWithAllErrors.
    rewrite combineWithAllErrors_loop_spec, error_payloads_app. simpl.
    change (error_payloads (Err e :: post)) with (e :: error_payloads post).
    rewrite bool_decide_eq_true_2; [reflexivity |].
    rewrite length_app. simpl. lia. }
  split; [apply first_err_decomposition |].
  split; reflexivity.
Qed.

Lemma all_loop_is_combine_loop {T E} (rs : list (Result T E)) acc :
  Part005.all_loop acc rs = Part005.combine_loop acc rs.
Proof.
  revert acc. induction rs as [| [v | e] rs IH]; intros acc; simpl;
    [reflexivity | apply IH | reflexivity].
Qed.

(** C10. On every list of Results [all] and [combine] return the same
    Result: the same payloads in the same order, or the same first error. *)
Theorem all_equals_combine :
  ∀ (T E : Type) (rs : list (Result T E)) (vs : list T) (e : E) rest,
    Part005.all rs = Part005.combine rs ∧
    Part005.all (E := E) (Ok <$> vs) = Ok vs ∧
    Part005.all ((Ok <$> vs) ++ Err e :: rest) = Err e.
Proof.
  intros T E rs vs e rest. unfold Part005.all.
  rewrite !all_loop_is_combine_loop.
  split; [reflexivity |].
  split; [apply (combine_loop_all_ok vs []) | apply combine_loop_first_err].
Qed.

Lemma any_loop_first_ok {T} (es : list JsValue) (v : T) rest last :
  Part005.any_loop last ((Err <$> es) ++ Ok v :: rest) = Ok v.
Proof.
  revert last. induction es as [| e es IH]; intros last; simpl;
    [reflexivity | apply IH].
Qed.

Lemma any_loop_all_err {T} (es : list JsValue) (e last : JsValue) :
  Part005.any_loop (T := T) last (Err <$> (es ++ [e])) = Err e.
Proof.
  revert last. induction es as [| e0 es IH]; intros last; simpl;
    [reflexivity | apply IH].
Qed.

(** Every list of Results has a first [Ok] after a run of [Err]s, or is all
    [Err]. *)
Lemma first_ok_decomposition {T E} (rs : list (Result T E)) :
  (∃ es v rest, rs = (Err <$> es) ++ Ok v :: rest) ∨ (∃ es, rs = Err <$> es).
Proof.
  induction rs as [| [v | e] rs IH].
  - right. now exists [].
  - left. now exists [], v, rs.
  - destruct IH as [(es & v & rest & ->) | [es ->]].
    + left. now exists (e :: es), v, rest.
    + right. now exists (e :: es).
Qed.

(** C6. [any] returns the first [Ok] element, whatever follows it; when
    every element is [Err] it returns an [Err] with the error of the last
    one; on the empty list it returns an [Err] of [undefined].  The two
    shapes of input are the only ones. *)
Theorem any_first_ok_or_last_err :
  ∀ (T : Type) (es : list JsValue) (e : JsValue) (v : T)
    (rest rs : list (Result T JsValue)),
    Part005.any ((Err <$> es) ++ Ok v :: rest) = Ok v ∧
    Part005.any (T := T) (Err <$> (es ++ [e])) = Err e ∧
    Part005.any (T := T) [] = Err JsUndefined ∧
    ((∃ es' v' rest', rs = (Err <$> es') ++ Ok v' :: rest') ∨
     (∃ es', rs = Err <$> es')) ∧
    Part005.any [Err (JsStr "e1"); Ok (JsNumber 42); Err (JsStr "e2")]
      = Ok (JsNumber 42).
Proof.
  intros T es e v rest rs.
  split; [apply any_loop_first_ok |].
  split; [apply any_loop_all_err |].
  split; [reflexivity |].
  split; [apply first_ok_decomposition | reflexivity].
Qed.

(** ** Promise.all on promises that all fulfil *)

Section PromiseAllFulfilled.
Context {A : Type} (vs : list A).

Lemma count_empty_insert (slots : list (option A)) i x :
  slots !! i = Some None →
  count_empty slots = S (count_empty (<[i := Some x]> slots)).
Proof.
  revert i. induction slots as [| o slots IH]; intros [| i] H; try discriminate.
  - simpl in H. injection H as ->. reflexivity.
  - simpl in H. destruct o; simpl; [apply IH, H | f_equal; apply IH, H].
Qed.

Lemma count_empty_replicate n : count_empty (replicate n (@None A)) = n.
Proof. induction n; simpl; congruence. Qed.

Lemma count_empty_full : count_empty (Some <$> vs) = 0.
Proof. induction vs; simpl; auto. Qed.

Lemma omap_id_full : omap id (Some <$> vs) = vs.
Proof. induction vs as [| v l IH]; simpl; [reflexivity | now f_equal]. Qed.

Lemma all_inv_start : all_inv vs (Promise_all_start (length vs)).
Proof.
  unfold all_inv, Promise_all_start. simpl.
  rewrite length_replicate, count_empty_replicate.
  repeat split.
  - intros i x H. apply lookup_replicate in H as [[=] _].
  - destruct (decide (length vs = 0)) as [H0 | H0]; [| reflexivity].
    rewrite H0. reflexivity.
Qed.

Lemma all_inv_settle st i :
  all_inv vs st → all_inv vs (settle (Fulfilled <$> vs) st i).
Proof.
  intros (Hlen & Hval & Hrem & Hset). unfold settle.
  rewrite list_lookup_fmap.
  destruct (vs !! i) as [x |] eqn:Hi; simpl; [| repeat split; assumption].
  unfold resolveElement.
  destruct (values st !! i) as [[y |] |] eqn:Hslot;
    [repeat split; assumption | | repeat split; assumption].
  pose proof (count_empty_insert _ _ x Hslot) as Hcount.
  repeat split; simpl.
  - now rewrite length_insert.
  - intros j y. destruct (decide (i = j)) as [<- | Hne].
    + rewrite list_lookup_insert_eq by (eapply lookup_lt_Some; eauto).
      intros [= <-]. exact Hi.
    + rewrite list_lookup_insert_ne by assumption. apply Hval.
  - rewrite Hrem, Hcount. reflexivity.
  - rewrite Hset. destruct (decide (remaining st = 0)) as [H0 | H0];
      [rewrite Hrem, Hcount in H0; discriminate | reflexivity].
Qed.

Lemma settle_fills st i :
  all_inv vs st → i < length vs → filled i (settle (Fulfilled <$> vs) st i).
Proof.
  intros (Hlen & _) Hi. unfold settle, filled.
  rewrite list_lookup_fmap.
  destruct (lookup_lt_is_Some_2 vs i Hi) as [x Hx]. rewrite Hx. simpl.
  unfold resolveElement.
  destruct (lookup_lt_is_Some_2 (values st) i) as [o Ho]; [lia |].
  rewrite Ho. destruct o as [y |]; [eauto |].
  simpl. exists x. apply list_lookup_insert_eq. lia.
Qed.

Lemma settle_keeps_filled st i j :
  filled j st → filled j (settle (Fulfilled <$> vs) st i).
Proof.
  intros [y Hy]. unfold settle, filled.
  rewrite list_lookup_fmap.
  destruct (vs !! i) as [x |]; simpl; [| eauto].
  unfold resolveElement.
  destruct (values st !! i) as [[z |] |] eqn:Hslot; [eauto | | eauto].
  simpl. exists y. rewrite list_lookup_insert_ne; [assumption |].
  intros ->. congruence.
Qed.

Lemma all_inv_run order st :
  all_inv vs st →
  (∀ i, i < length vs → i ∈ order ∨ filled i st) →
  let final := foldl (settle (Fulfilled <$> vs)) st order in
  all_inv vs final ∧ ∀ i, i < length vs → filled i final.
Proof.
  revert st. induction order as [| i0 order IH]; intros st Hinv Hcover; simpl.
  - split; [assumption |]. intros i Hi.
    destruct (Hcover i Hi) as [Hin | Hf]; [| assumption].
    now apply elem_of_nil in Hin.
  - apply IH; [now apply all_inv_settle |].
    intros i Hi. destruct (Hcover i Hi) as [Hin | Hf].
    + apply elem_of_cons in Hin as [-> | Hin]; [| now left].
      right. now apply settle_fills.
    + right. now apply settle_keeps_filled.
Qed.

Lemma all_inv_full st :
  all_inv vs st → (∀ i, i < length vs → filled i st) →
  settled st = Some (Fulfilled vs).
Proof.
  intros (Hlen & Hval & Hrem & Hset) Hfull.
  assert (values st = Some <$> vs) as Hvalues.
  { apply list_eq. intros i. rewrite list_lookup_fmap.
    destruct (decide (i < length vs)) as [Hi | Hi].
    - destruct (Hfull i Hi) as [x Hx]. rewrite Hx, (Hval _ _ Hx). reflexivity.
    - rewrite !lookup_ge_None_2 by lia. reflexivity. }
  rewrite Hset, Hrem, Hvalues, count_empty_full, omap_id_full. reflexivity.
Qed.

(** When every input fulfils and every input does settle, [Promise.all]
    fulfils with the values in input order, whatever the order of
    settlement. *)
Lemma Promise_all_fulfilled order :
  (∀ i, i < length vs → i ∈ order) →
  Promise_all (Fulfilled <$> vs) order = Some (Fulfilled vs).
Proof.
  intros Hcover. unfold Promise_all. rewrite length_fmap.
  destruct (all_inv_run order (Promise_all_start (length vs))) as [Hinv Hfull].
  - apply all_inv_start.
  - intros i Hi. left. now apply Hcover.
  - now apply all_inv_full.
Qed.

End PromiseAllFulfilled.

(** The model of [Promise.all] on small inputs: the value list follows the
    input order and not the order of settlement; the first rejection to
    arrive wins; an input that never settles leaves the result pending. *)
Example Promise_all_samples :
  Promise_all [Fulfilled 10; Fulfilled 20; Fulfilled 30] [2; 0; 1]
    = Some (Fulfilled [10; 20; 30]) ∧
  Promise_all [Fulfilled 10; Rejected (JsStr "x"); Rejected (JsStr "y")] [2; 0; 1]
    = Some (Rejected (JsStr "y")) ∧
  Promise_all [Fulfilled 10; Fulfilled 20; Fulfilled 30] [2; 0]
    = None ∧
  Promise_all (A := nat) [] [] = Some (Fulfilled []).
Proof. repeat split. Qed.

(** ** parallel *)

Lemma invoked_each_once_total {St R} (ops : list (Eff St (Promise R))) s :
  Forall (λ op, ∀ s0, ∃ r s1, op s0 = (Return (Fulfilled r), s1)) ops →
  ∃ rs s', invoked_each_once ops s rs s'.
Proof.
  intros Hops. revert s. induction Hops as [| op ops Hop _ IH]; intros s.
  - exists [], s. constructor.
  - destruct (Hop s) as (r & s1 & Hr). destruct (IH s1) as (rs & s' & Hrs).
    exists (r :: rs), s'. econstructor; eassumption.
Qed.

Lemma invoked_each_once_length {St R} (ops : list (Eff St (Promise R))) s rs s' :
  invoked_each_once ops s rs s' → length rs = length ops.
Proof. induction 1; simpl; congruence. Qed.

(** [operations.map(op => op())] calls each operation once, in index
    order. *)
Lemma Array_map_invoked {St R} (ops : list (Eff St (Promise R))) s rs s' :
  invoked_each_once ops s rs s' →
  Array_map (λ op, op) ops s = (Return (Fulfilled <$> rs), s').
Proof.
  induction 1 as [| op ops s r s1 rs s' Hop _ IH]; [reflexivity |].
  simpl. unfold bind at 1. rewrite Hop.
  unfold bind at 1. rewrite IH. reflexivity.
Qed.

(** The world after [parallel] is the world after the calls, whatever the
    promises do. *)
Lemma parallel_world {St T E}
    (ops : list (Eff St (Promise (Result T E)))) order s :
  snd (Part005.parallel ops order s) = snd (Array_map (λ op, op) ops s).
Proof.
  unfold Part005.parallel.
  destruct (Array_map (λ op, op) ops s) as [[promises | x] s']; [| reflexivity].
  destruct (Promise_all promises order) as [[results | reason] |]; reflexivity.
Qed.

Lemma spied_invoked {St R} (ops : list (Eff St (Promise R))) s rs s' :
  invoked_each_once ops s rs s' →
  ∀ k log,
    invoked_each_once (imap (λ i, spy (k + i)) ops) (s, log) rs
      (s', log ++ seq k (length ops)).
Proof.
  induction 1 as [s | op ops s r s1 rs s' Hop _ IH]; intros k log.
  - simpl. rewrite app_nil_r. constructor.
  - simpl. econstructor.
    + simpl. rewrite Hop. reflexivity.
    + replace (log ++ k :: seq (S k) (length ops))
        with ((log ++ [k + 0]) ++ seq (S k) (length ops))
        by (rewrite Nat.add_0_r, <- app_assoc; reflexivity).
      replace (imap ((λ i, spy (k + i)) ∘ S) ops)
        with (imap (λ i, spy (A := Promise R) (St := St) (S k + i)) ops).
      * apply IH.
      * apply imap_ext. intros i op' _. simpl. f_equal. lia.
Qed.

(** C8. When every operation hands back a promise that fulfils with a
    Result, and every such promise does settle, [parallel] calls every
    operation once, in index order, also after one that produced an [Err],
    and its promise fulfils with [combine] of the Results in index order,
    whatever the order of settlement: [Ok] of all payloads when all are
    [Ok], else the error of the failing operation of lowest index.  With
    spies around the operations the call log gains each index once. *)
Theorem parallel_runs_all_and_combines :
  ∀ (St T E : Type) (operations : list (Eff St (Promise (Result T E))))
    (order : list nat) (s : St),
    (∀ i, i < length operations → i ∈ order) →
    Forall (λ op, ∀ s0, ∃ r s1, op s0 = (Return (Fulfilled r), s1)) operations →
    (∃ rs s',
       invoked_each_once operations s rs s' ∧
       Part005.parallel operations order s
         = (Some (Fulfilled (Part005.combine rs)), s') ∧
       (∀ vs, rs = Ok <$> vs → Part005.combine rs = Ok vs) ∧
       (∀ vs e rest, rs = (Ok <$> vs) ++ Err e :: rest →
          Part005.combine rs = Err e)) ∧
    (∀ log,
       snd (snd (Part005.parallel (imap spy operations) order (s, log)))
       = log ++ seq 0 (length operations)).
Proof.
  intros St T E operations order s Hcover Hops.
  destruct (invoked_each_once_total operations s Hops) as (rs & s' & Hrun).
  split.
  - exists rs, s'. split; [assumption |]. split.
    + unfold Part005.parallel. rewrite (Array_map_invoked _ _ _ _ Hrun).
      rewrite Promise_all_fulfilled; [reflexivity |].
      intros i Hi. apply Hcover.
      now rewrite <- (invoked_each_once_length _ _ _ _ Hrun).
    + split.
      * intros vs ->. apply (combine_loop_all_ok vs []).
      * intros vs e rest ->. apply combine_loop_first_err.
  - intros log. rewrite parallel_world.
    exact (f_equal (λ p, snd (snd p))
             (Array_map_invoked _ _ _ _ (spied_invoked _ _ _ _ Hrun 0 log))).
Qed.

(** Three counting operations, the second one producing an [Err], settling
    in the order 2, 0, 1. *)
Lemma parallel_runs_all_and_combines_witness :
  let operations : list (Eff nat (Promise (Result Z string))) :=
    [counting_op (Ok 1%Z); counting_op (Err "e"); counting_op (Ok 3%Z)] in
  (∃ rs s',
     invoked_each_once operations 0 rs s' ∧
     Part005.parallel operations [2; 0; 1] 0
       = (Some (Fulfilled (Part005.combine rs)), s') ∧
     (∀ vs, rs = Ok <$> vs → Part005.combine rs = Ok vs) ∧
     (∀ vs e rest, rs = (Ok <$> vs) ++ Err e :: rest →
        Part005.combine rs = Err e)) ∧
  (∀ log,
     snd (snd (Part005.parallel (imap spy operations) [2; 0; 1] (0, log)))
     = log ++ seq 0 (length operations)).
Proof.
  intros operations.
  apply (parallel_runs_all_and_combines nat Z string operations [2; 0; 1] 0).
  - intros i Hi. simpl in Hi.
    destruct i as [| [| [| i]]]; [repeat constructor.. | lia].
  - repeat constructor; intros s0; eexists _, _; reflexivity.
Defined.

(** The same run, computed: the aggregate reports the error of the second
    operation and the counter has seen three calls. *)
Example parallel_three_operations :
  Part005.parallel
    [counting_op (Ok 1%Z); counting_op (Err "e"); counting_op (Ok 3%Z)]
    [2; 0; 1] 0
  = (Some (Fulfilled (Err "e")), 3).
Proof. reflexivity. Qed.

(** What the hypotheses of C8 leave out: an operation that rejects makes
    the promise of [parallel] reject, and an operation that throws when
    called keeps the later ones from being called. *)
Example parallel_rejection_and_throw :
  Part005.parallel (T := Z) (E := string)
    [counting_op (Ok 1%Z); (λ calls, (Return (Rejected (JsStr "no")), S calls));
     counting_op (Ok 3%Z)] [0; 1; 2] 0
  = (Some (Rejected (JsStr "no")), 3) ∧
  Part005.parallel (T := Z) (E := string)
    [counting_op (Ok 1%Z); (λ calls, (Throw (JsStr "no"), S calls));
     counting_op (Ok 3%Z)] [0; 1; 2] 0
  = (Some (Rejected (JsStr "no")), 2).
Proof. split; reflexivity. Qed.

(** * Further properties of the two files *)

(** ** traverse *)

Lemma traverse_loop_ok {St T U E} (fn : T → Eff St (Result U E))
    items s us s' acc :
  applied_each_ok fn items s us s' →
  Part005.traverse_loop acc items fn s = (Return (Ok (acc ++ us)), s').
Proof.
  intros H. revert acc.
  induction H as [s | item items s u s1 us s' Hfn _ IH]; intros acc; simpl.
  - now rewrite app_nil_r.
  - unfold bind. rewrite Hfn, IH, <- app_assoc. reflexivity.
Qed.

Lemma traverse_loop_stops {St T U E} (fn : T → Eff St (Result U E))
    pre x rest s us s1 acc :
  applied_each_ok fn pre s us s1 →
  Part005.traverse_loop acc (pre ++ x :: rest) fn s
  = match fn x s1 with
    | (Return (Ok u), s2) =>
        Part005.traverse_loop (acc ++ us ++ [u]) rest fn s2
    | (Return (Err e), s2) => (Return (Err e), s2)
    | (Throw y, s2) => (Throw y, s2)
    end.
Proof.
  intros H. revert acc.
  induction H as [s | item items s u s1 us s' Hfn _ IH]; intros acc; simpl.
  - unfold bind. destruct (fn x s) as [[[u | e] | y] s2]; reflexivity.
  - unfold bind at 1. rewrite Hfn, IH.
    destruct (fn x s') as [[[u' | e] | y] s2]; try reflexivity.
    now rewrite <- !app_assoc.
Qed.

(** X1. [traverse] calls [fn] on the items in order while it returns [Ok];
    at the first [Err] it returns that [Err] and the world is the one [fn]
    left there, whatever items follow: they are not evaluated.  An
    exception of [fn] leaves [traverse] in the same way. *)
Theorem traverse_stops_at_first_failure :
  ∀ (St T U E : Type) (fn : T → Eff St (Result U E)) (pre : list T) (x : T)
    (rest : list T) (us : list U) (s s1 : St),
    applied_each_ok fn pre s us s1 →
    Part005.traverse pre fn s = (Return (Ok us), s1) ∧
    (∀ e s2, fn x s1 = (Return (Err e), s2) →
       Part005.traverse (pre ++ x :: rest) fn s = (Return (Err e), s2)) ∧
    (∀ y s2, fn x s1 = (Throw y, s2) →
       Part005.traverse (pre ++ x :: rest) fn s = (Throw y, s2)).
Proof.
  intros St T U E fn pre x rest us s s1 H. unfold Part005.traverse.
  split; [apply (traverse_loop_ok fn pre s us s1 [] H) |].
  split; intros ? s2 Hx;
    rewrite (traverse_loop_stops fn pre x rest s us s1 [] H), Hx; reflexivity.
Qed.

(** A parser that counts its calls: the third item is never parsed. *)
Lemma traverse_stops_at_first_failure_witness :
  let fn : Z → Eff nat (Result Z string) :=
    λ n calls, (Return (if decide (0 ≤ n)%Z then Ok n else Err "negative"),
                S calls) in
  Part005.traverse [1%Z] fn 0 = (Return (Ok [1%Z]), 1) ∧
  (∀ e s2, fn (-2)%Z 1 = (Return (Err e), s2) →
     Part005.traverse ([1%Z] ++ (-2)%Z :: [3%Z]) fn 0 = (Return (Err e), s2)) ∧
  (∀ y s2, fn (-2)%Z 1 = (Throw y, s2) →
     Part005.traverse ([1%Z] ++ (-2)%Z :: [3%Z]) fn 0 = (Throw y, s2)).
Proof.
  intros fn.
  apply (traverse_stops_at_first_failure nat Z Z string fn [1%Z] (-2)%Z [3%Z]).
  econstructor; [reflexivity | constructor].
Defined.

Lemma traverse_loop_pure {St T U E} (f : T → Result U E) items acc (s : St) :
  Part005.traverse_loop acc items (pure f) s
  = (Return (Part005.combine_loop acc (f <$> items)), s).
Proof.
  revert acc. induction items as [| item items IH]; intros acc; [reflexivity |].
  simpl. unfold bind, pure, ret. simpl.
  destruct (f item) as [u | e]; [apply IH | reflexivity].
Qed.

(** X2. With a function that has no effect, [traverse(items, f)] is
    [combine(items.map(f))] and leaves the world alone. *)
Theorem traverse_pure_is_combine_of_map :
  ∀ (St T U E : Type) (f : T → Result U E) (items : list T) (s : St),
    Part005.traverse items (pure f) s
    = (Return (Part005.combine (f <$> items)), s).
Proof.
  intros. apply traverse_loop_pure.
Qed.

(** ** sequence *)

Lemma sequence_loop_ok {St T E} (ops : list (Eff St (Promise (Result T E))))
    s vs s' acc :
  invoked_each_once ops s (Ok <$> vs) s' →
  Part005.sequence_loop acc ops s = (Return (Ok (acc ++ vs)), s').
Proof.
  intros H. remember (Ok <$> vs) as rs eqn:Hrs. revert acc vs Hrs.
  induction H as [s | op ops s r s1 rs s' Hop _ IH]; intros acc vs Hrs.
  - destruct vs; [| discriminate]. simpl. now rewrite app_nil_r.
  - destruct vs as [| v vs]; [discriminate |]. injection Hrs as -> ->.
    simpl. unfold bind at 1. rewrite Hop. unfold bind at 1, await. simpl.
    rewrite (IH _ vs eq_refl), <- app_assoc. reflexivity.
Qed.

Lemma sequence_loop_stops {St T E}
    (pre : list (Eff St (Promise (Result T E)))) op rest s vs s1 acc :
  invoked_each_once pre s (Ok <$> vs) s1 →
  Part005.sequence_loop acc (pre ++ op :: rest) s
  = match op s1 with
    | (Return (Fulfilled (Ok v)), s2) =>
        Part005.sequence_loop (acc ++ vs ++ [v]) rest s2
    | (Return (Fulfilled (Err e)), s2) => (Return (Err e), s2)
    | (Return (Rejected reason), s2) => (Throw reason, s2)
    | (Throw y, s2) => (Throw y, s2)
    end.
Proof.
  intros H. remember (Ok <$> vs) as rs eqn:Hrs. revert acc vs Hrs.
  induction H as [s | op0 ops s r s1 rs s' Hop _ IH]; intros acc vs Hrs.
  - destruct vs; [| discriminate]. simpl. unfold bind at 1.
    destruct (op s) as [[[[v | e] | reason] | y] s2]; try reflexivity.
  - destruct vs as [| v vs]; [discriminate |]. injection Hrs as -> ->.
    simpl. unfold bind at 1. rewrite Hop. unfold bind at 1, await. simpl.
    rewrite (IH _ vs eq_refl).
    destruct (op s') as [[[[v' | e] | reason] | y] s2]; try reflexivity.
    now rewrite <- !app_assoc.
Qed.

(** X3. [sequence] calls the operations in order while their promises
    fulfil with [Ok]; at the first one that fulfils with [Err] its promise
    fulfils with that [Err], and at the first one that rejects or throws
    its promise rejects; in each case the world is the one that operation
    left, whatever operations follow: they are never called. *)
Theorem sequence_stops_at_first_failure :
  ∀ (St T E : Type) (pre : list (Eff St (Promise (Result T E))))
    (op : Eff St (Promise (Result T E)))
    (rest : list (Eff St (Promise (Result T E)))) (vs : list T) (s s1 : St),
    invoked_each_once pre s (Ok <$> vs) s1 →
    Part005.sequence pre s = (Fulfilled (Ok vs), s1) ∧
    (∀ e s2, op s1 = (Return (Fulfilled (Err e)), s2) →
       Part005.sequence (pre ++ op :: rest) s = (Fulfilled (Err e), s2)) ∧
    (∀ reason s2, op s1 = (Return (Rejected reason), s2) →
       Part005.sequence (pre ++ op :: rest) s = (Rejected reason, s2)) ∧
    (∀ y s2, op s1 = (Throw y, s2) →
       Part005.sequence (pre ++ op :: rest) s = (Rejected y, s2)).
Proof.
  intros St T E pre op rest vs s s1 H. unfold Part005.sequence, async.
  split; [now rewrite (sequence_loop_ok pre s vs s1 [] H) |].
  repeat split; intros ? s2 Hop;
    rewrite (sequence_loop_stops pre op rest s vs s1 [] H), Hop; reflexivity.
Qed.

Lemma sequence_stops_at_first_failure_witness :
  let pre : list (Eff nat (Promise (Result Z string))) :=
    [counting_op (Ok 1%Z)] in
  let op : Eff nat (Promise (Result Z string)) := counting_op (Err "e") in
  let rest : list (Eff nat (Promise (Result Z string))) :=
    [counting_op (Ok 3%Z)] in
  Part005.sequence pre 0 = (Fulfilled (Ok [1%Z]), 1) ∧
  (∀ e s2, op 1 = (Return (Fulfilled (Err e)), s2) →
     Part005.sequence (pre ++ op :: rest) 0 = (Fulfilled (Err e), s2)) ∧
  (∀ reason s2, op 1 = (Return (Rejected reason), s2) →
     Part005.sequence (pre ++ op :: rest) 0 = (Rejected reason, s2)) ∧
  (∀ y s2, op 1 = (Throw y, s2) →
     Part005.sequence (pre ++ op :: rest) 0 = (Rejected y, s2)).
Proof.
  intros pre op rest.
  apply (sequence_stops_at_first_failure nat Z string pre op rest [1%Z] 0 1).
  econstructor; [reflexivity | constructor].
Defined.






(** ** traverseAsync *)

Lemma traverseAsync_loop_is_sequence_loop {St T U E}
    (fn : T → Eff St (Promise (Result U E))) items acc s :
  Part005.traverseAsync_loop acc items fn s
  = Part005.sequence_loop acc (fn <$> items) s.
Proof.
  revert acc s. induction items as [| item items IH]; intros acc s;
    [reflexivity |].
  simpl. unfold bind at 1 3.
  destruct (fn item s) as [[[[u | e] | reason] | y] s1]; try reflexivity.
  unfold bind, await. simpl. apply IH.
Qed.

(** X5. [traverseAsync(items, fn)] settles as [sequence] does on the
    operations [() => fn(item)], one per item in order, and leaves the same
    world. *)
Theorem traverseAsync_is_sequence_of_map :
  ∀ (St T U E : Type) (fn : T → Eff St (Promise (Result U E)))
    (items : list T) (s : St),
    Part005.traverseAsync items fn s = Part005.sequence (fn <$> items) s.
Proof.
  intros. unfold Part005.traverseAsync, Part005.sequence, async.
  now rewrite traverseAsync_loop_is_sequence_loop.
Qed.

(** ** tryCatchAsync and fromPromise *)

(** X6. The promise of [tryCatchAsync] fulfils with [Ok] of the value the
    promise of [fn] fulfils with.  A rejection of that promise and an
    exception thrown by [fn] itself are treated alike: the result fulfils
    with [Err] of the caught value, or of what the handler returns for it.
    It rejects only when the handler throws; [fromPromise] without a
    handler never rejects. *)
Theorem tryCatchAsync_outcomes :
  ∀ (St T : Type) (fn : Eff St (Promise T))
    (errorHandler : option (JsValue → Eff St JsValue)) (p : Promise T) (s : St),
    (∀ v s', fn s = (Return (Fulfilled v), s') →
       Part005.tryCatchAsync fn errorHandler s = (Fulfilled (Ok v), s')) ∧
    (∀ x s',
       fn s = (Return (Rejected x), s') ∨ fn s = (Throw x, s') →
       errorHandler = None →
       Part005.tryCatchAsync fn errorHandler s = (Fulfilled (Err x), s')) ∧
    (∀ x s' handler e s'',
       fn s = (Return (Rejected x), s') ∨ fn s = (Throw x, s') →
       errorHandler = Some handler → handler x s' = (Return e, s'') →
       Part005.tryCatchAsync fn errorHandler s = (Fulfilled (Err e), s'')) ∧
    (∀ y s'', Part005.tryCatchAsync fn errorHandler s = (Rejected y, s'') →
       ∃ handler x s', errorHandler = Some handler ∧
                       handler x s' = (Throw y, s'')) ∧
    (∃ r, Part005.fromPromise p None s = (Fulfilled r, s)).
Proof.
  intros St T fn errorHandler p s.
  unfold Part005.fromPromise, Part005.tryCatchAsync, async, try_catch, bind,
    await, ret.
  split; [| split; [| split; [| split]]].
  - intros v s' Hfn. now rewrite Hfn.
  - intros x s' [Hfn | Hfn] ->; now rewrite Hfn.
  - intros x s' handler e s'' [Hfn | Hfn] -> Hh; now rewrite Hfn, Hh.
  - intros y s''.
    destruct (fn s) as [[[v | x] | x] s'] eqn:Hfn; [discriminate | |];
      (destruct errorHandler as [handler |]; [| discriminate]);
      (destruct (handler x s') as [[e | y'] t] eqn:Hh; [discriminate |]);
      intros [= -> ->]; exists handler, x, s'; auto.
  - destruct p as [v | x]; eauto.
Qed.

(** ** Leaving the Result domain and coming back *)


(** X8. A Result unwrapped inside [tryCatch] comes back: unchanged when
    [unwrapOrThrow] is given a [mapError] that hands the error on as it is;
    with the error replaced by [new Error(String(e))] when it is given
    none; and with the error replaced by the [Error] of [unwrap] when the
    method [unwrap] is used. *)
Theorem unwrap_inside_tryCatch_round_trip :
  ∀ (St T E : Type) (SE : Stringifiable E)
    (r : Result T JsValue) (r' : Result T E) (s : St),
    Part005.tryCatch (Part005.unwrapOrThrow r (Some (pure (λ e, e)))) None s
      = (Return r, s) ∧
    Part005.tryCatch (Part005.unwrapOrThrow r' None) None s
      = (Return match r' with
                | Ok v => Ok v
                | Err e => Err (JsError (ToString e))
                end, s) ∧
    Part005.tryCatch (λ s0, (Part005.Result_unwrap r', s0)) None s
      = (Return match r' with
                | Ok v => Ok v
                | Err e =>
                    Err (JsError ("Called unwrap on an Err value: "
                                  +:+ ToString e))
                end, s).
Proof.
  intros St T E SE r r' s.
  split; [destruct r; reflexivity |].
  split; destruct r'; reflexivity.
Qed.

(** ** partition, combine and combineWithAllErrors together *)

Lemma partition_loop_spec {T E} (rs : list (Result T E)) oks errs :
  Part005.partition_loop oks errs rs
  = (oks ++ ok_payloads rs, errs ++ error_payloads rs).
Proof.
  revert oks errs. induction rs as [| [v | e] rs IH]; intros oks errs; simpl.
  - now rewrite !app_nil_r.
  - rewrite IH, <- app_assoc. reflexivity.
  - rewrite IH, <- app_assoc. reflexivity.
Qed.

Lemma partition_spec {T E} (rs : list (Result T E)) :
  Part005.partition rs = (ok_payloads rs, error_payloads rs).
Proof. unfold Part005.partition. now rewrite partition_loop_spec. Qed.

Lemma ok_payloads_app {T E} (l1 l2 : list (Result T E)) :
  ok_payloads (l1 ++ l2) = ok_payloads l1 ++ ok_payloads l2.
Proof.
  induction l1 as [| [v | e] l1 IH]; simpl; [reflexivity | | exact IH].
  unfold ok_payloads in *. simpl. now f_equal.
Qed.

Lemma payloads_length {T E} (rs : list (Result T E)) :
  length (ok_payloads rs) + length (error_payloads rs) = length rs.
Proof.
  induction rs as [| [v | e] rs IH]; [reflexivity | |].
  - change (ok_payloads (Ok v :: rs)) with (v :: ok_payloads rs).
    change (error_payloads (Ok v :: rs)) with (error_payloads rs).
    simpl. lia.
  - change (ok_payloads (Err e :: rs)) with (ok_payloads rs).
    change (error_payloads (Err e :: rs)) with (e :: error_payloads rs).
    simpl. lia.
Qed.

Lemma payloads_of_errs {T E} (es : list E) :
  ok_payloads (T := T) (Err <$> es) = [] ∧ error_payloads (T := T) (Err <$> es) = es.
Proof.
  induction es as [| e es [IH1 IH2]]; [split; reflexivity |].
  split; simpl; [exact IH1 | unfold error_payloads in IH2; simpl; now f_equal].
Qed.

(** X9. [partition] loses nothing and keeps the order on each side: the
    two lists have the length of the input between them, partitioning a
    concatenation concatenates the parts, an all-[Ok] or all-[Err] input
    comes back whole on its side, and [combineWithAllErrors] of the same
    input is [Err] of the failures when there are any and [Ok] of the
    successes otherwise. *)
Theorem partition_keeps_everything :
  ∀ (T E : Type) (rs a b : list (Result T E)) (vs : list T) (es : list E),
    length (Part005.partition rs).1 + length (Part005.partition rs).2
      = length rs ∧
    Part005.partition (a ++ b)
      = ((Part005.partition a).1 ++ (Part005.partition b).1,
         (Part005.partition a).2 ++ (Part005.partition b).2) ∧
    Part005.partition (E := E) (Ok <$> vs) = (vs, []) ∧
    Part005.partition (T := T) (Err <$> es) = ([], es) ∧
    Part005.combineWithAllErrors rs
      = match (Part005.partition rs).2 with
        | [] => Ok (Part005.partition rs).1
        | _ :: _ => Err (Part005.partition rs).2
        end.
Proof.
  intros T E rs a b vs es. rewrite !partition_spec. simpl.
  split; [apply payloads_length |].
  split; [now rewrite ok_payloads_app, error_payloads_app |].
  split; [now destruct (payloads_of_oks (E := E) vs) as [-> ->] |].
  split; [now destruct (payloads_of_errs (T := T) es) as [-> ->] |].
  unfold Part005.combineWithAllErrors.
  rewrite combineWithAllErrors_loop_spec. simpl.
  destruct (error_payloads rs); reflexivity.
Qed.

(** X10. [combine] and [combineWithAllErrors] agree on success, and on
    failure the error of [combine] is the first of the errors that
    [combineWithAllErrors] collects. *)
Theorem combine_error_heads_all_errors :
  ∀ (T E : Type) (rs : list (Result T E)),
    match Part005.combine rs with
    | Ok vs => Part005.combineWithAllErrors rs = Ok vs
    | Err e => ∃ es, Part005.combineWithAllErrors rs = Err (e :: es)
    end.
Proof.
  intros T E rs. unfold Part005.combine, Part005.combineWithAllErrors.
  rewrite combineWithAllErrors_loop_spec. simpl.
  destruct (first_err_decomposition rs) as [[vs ->] | (vs & e & rest & ->)].
  - rewrite (combine_loop_all_ok vs []).
    now destruct (payloads_of_oks (E := E) vs) as [-> ->].
  - rewrite combine_loop_first_err, error_payloads_app.
    destruct (payloads_of_oks (E := E) vs) as [_ ->].
    change (error_payloads (Err e :: rest)) with (e :: error_payloads rest).
    simpl. eauto.
Qed.

Lemma combine_loop_acc {T E} (rs : list (Result T E)) acc :
  Part005.combine_loop acc rs
  = match Part005.combine_loop [] rs with
    | Ok ys => Ok (acc ++ ys)
    | Err e => Err e
    end.
Proof.
  destruct (first_err_decomposition rs) as [[vs ->] | (vs & e & rest & ->)].
  - now rewrite !combine_loop_all_ok.
  - now rewrite !combine_loop_first_err.
Qed.

Lemma combine_loop_skip_oks {T E} (vs : list T) (rs : list (Result T E)) acc :
  Part005.combine_loop acc ((Ok <$> vs) ++ rs)
  = Part005.combine_loop (acc ++ vs) rs.
Proof.
  revert acc. induction vs as [| v vs IH]; intros acc; simpl.
  - now rewrite app_nil_r.
  - rewrite IH, <- app_assoc. reflexivity.
Qed.

(** X11. [combine] of a concatenation: the error of the first part when it
    has one, else the error of the second part, else the payloads of both,
    first part first. *)
Theorem combine_of_concatenation :
  ∀ (T E : Type) (a b : list (Result T E)),
    Part005.combine (a ++ b)
    = match Part005.combine a with
      | Err e => Err e
      | Ok xs =>
          match Part005.combine b with
          | Ok ys => Ok (xs ++ ys)
          | Err e => Err e
          end
      end.
Proof.
  intros T E a b. unfold Part005.combine.
  destruct (first_err_decomposition a) as [[vs ->] | (vs & e & rest & ->)].
  - rewrite combine_loop_skip_oks, (combine_loop_all_ok vs []). simpl.
    apply combine_loop_acc.
  - now rewrite <- app_assoc, <- app_comm_cons, !combine_loop_first_err.
Qed.

(** ** flatten and swap *)

(** X12. [flatten] undoes one wrapping in [ok]; it is [andThen] with the
    identity; mapping a Result-returning function and flattening is
    [andThen] with that function; and two levels of nesting flatten to the
    same Result from the outside in or from the inside out. *)
Theorem flatten_laws :
  ∀ (St T U E : Type) (r : Result T E) (rr : Result (Result T E) E)
    (rrr : Result (Result (Result T E) E) E) (f : T → Result U E) (s : St),
    Part005.flatten (Part005.ok r) = r ∧
    (r1 <- Part005.Result_map r (pure Part005.ok) ;; ret (Part005.flatten r1)) s
      = (Return r, s) ∧
    Part005.Result_andThen rr (pure (λ x, x)) s
      = (Return (Part005.flatten rr), s) ∧
    (r1 <- Part005.Result_map r (pure f) ;; ret (Part005.flatten r1)) s
      = Part005.Result_andThen r (pure f) s ∧
    (r1 <- Part005.Result_map rrr (pure Part005.flatten) ;;
     ret (Part005.flatten r1)) s
      = (Return (Part005.flatten (Part005.flatten rrr)), s).
Proof.
  intros St T U E r rr rrr f s.
  split; [reflexivity |].
  split; [destruct r; reflexivity |].
  split; [destruct rr; reflexivity |].
  split; [destruct r; reflexivity |].
  destruct rrr as [[[v | e] | e] | e]; reflexivity.
Qed.

(** X13. [swap] is its own inverse, exchanges [isOk] and [isErr], and turns
    [map] into [mapErr]. *)
Theorem swap_involution :
  ∀ (St T U E : Type) (r : Result T E) (f : T → U) (s : St),
    Part005.swap (Part005.swap r) = r ∧
    isOk (Part005.swap r) = isErr r ∧
    isErr (Part005.swap r) = isOk r ∧
    (r1 <- Part005.Result_map r (pure f) ;; ret (Part005.swap r1)) s
      = Part005.Result_mapErr (Part005.swap r) (pure f) s.
Proof.
  intros St T U E r f s. destruct r; repeat split.
Qed.

Lemma any_loop_errs {T} (es : list JsValue) last :
  Part005.any_loop (T := T) last (Err <$> es)
  = Err (default last (list.last es)).
Proof.
  revert last. induction es as [| e es IH]; intros last; [reflexivity |].
  simpl. rewrite IH. destruct es as [| j es]; [reflexivity |].
  change (list.last (e :: j :: es)) with (list.last (j :: es)).
  destruct (list.last (j :: es)) eqn:H; [reflexivity |].
  apply last_None in H. discriminate.
Qed.

Lemma all_loop_all_ok {T E} (vs acc : list T) :
  Part005.all_loop (E := E) acc (Ok <$> vs) = Ok (acc ++ vs).
Proof. rewrite all_loop_is_combine_loop. apply combine_loop_all_ok. Qed.

Lemma all_loop_first_err {T E} (vs acc : list T) (e : E) rest :
  Part005.all_loop acc ((Ok <$> vs) ++ Err e :: rest) = Err e.
Proof. rewrite all_loop_is_combine_loop. apply combine_loop_first_err. Qed.

(** X14. [any] is [all] seen through [swap], up to the errors it keeps: the
    first success of the list is the first failure of the swapped list, and
    where [all] of the swapped list would hand back every error, [any]
    keeps the last one, or [undefined] when there is none. *)
Theorem any_is_all_through_swap :
  ∀ (T : Type) (rs : list (Result T JsValue)),
    Part005.any rs
    = match Part005.all (Part005.swap <$> rs) with
      | Err v => Ok v
      | Ok es => Err (default JsUndefined (last es))
      end.
Proof.
  intros T rs. unfold Part005.any, Part005.all.
  destruct (first_ok_decomposition rs) as [(es & v & rest & ->) | [es ->]].
  - rewrite any_loop_first_ok, fmap_app, fmap_cons, <- list_fmap_compose.
    change (Part005.swap ∘ Err) with (@Ok JsValue T).
    change (Part005.swap (Ok v)) with (@Err JsValue T v).
    now rewrite all_loop_first_err.
  - rewrite any_loop_errs, <- list_fmap_compose.
    change (Part005.swap ∘ Err) with (@Ok JsValue T).
    now rewrite all_loop_all_ok.
Qed.

(** ** filter and tap *)

(** X15. [filter] hands an [Err] on without calling the predicate.  With a
    predicate that has no effect: an [Ok] that comes out went in and
    satisfies the predicate; filtering twice is filtering once; and two
    filters with the same error are one filter with both predicates. *)
Theorem filter_laws :
  ∀ (St T E : Type) (r : Result T E) (e0 e : E) (p q : T → bool)
    (predicate : T → Eff St bool) (s : St) (log : list nat) (v : T),
    Part005.filter (Part005.err e0) (λ x, spy 0 (predicate x)) e (s, log)
      = (Return (Err e0), (s, log)) ∧
    (Part005.filter r (pure p) e s = (Return (Ok v), s) →
       r = Ok v ∧ p v = true) ∧
    (r1 <- Part005.filter r (pure p) e ;; Part005.filter r1 (pure p) e) s
      = Part005.filter r (pure p) e s ∧
    (r1 <- Part005.filter r (pure p) e ;; Part005.filter r1 (pure q) e) s
      = Part005.filter r (pure (λ x, p x && q x)) e s.
Proof.
  intros St T E r e0 e p q predicate s log v.
  split; [reflexivity |].
  split.
  { destruct r as [w | e1]; simpl; unfold bind, pure, ret; simpl.
    - destruct (p w) eqn:Hp; intros [= <-]; auto.
    - discriminate. }
  split.
  - destruct r as [w | e1]; [| reflexivity].
    simpl. unfold bind, pure, ret. simpl.
    destruct (p w) eqn:Hp; simpl; [now rewrite Hp | reflexivity].
  - destruct r as [w | e1]; [| reflexivity].
    simpl. unfold bind, pure, ret. simpl.
    destruct (p w) eqn:Hp; simpl; [destruct (q w) |]; reflexivity.
Qed.


(** ** match, unwrapOr, unwrapOrElse and getOrElse *)

(** X17. [r.match({ok: f, err: g})] is [r.map(f).unwrapOrElse(g)], whatever
    the handlers do; [unwrapOrElse(g)] is [match] with the identity on the
    success side; the free function [getOrElse] is the method
    [unwrapOrElse]; and [unwrapOr(d)] is [getOrElse] with the constant
    function. *)
Theorem match_and_defaults :
  ∀ (St T U E : Type) (r : Result T E) (f : T → Eff St U) (g : E → Eff St U)
    (h : E → Eff St T) (d : T) (s : St),
    (r1 <- Part005.Result_map r f ;; Part005.Result_unwrapOrElse r1 g) s
      = Part005.Result_match r f g s ∧
    Part005.Result_unwrapOrElse r h s = Part005.Result_match r ret h s ∧
    Part005.getOrElse r h s = Part005.Result_unwrapOrElse r h s ∧
    Part005.getOrElse r (λ _, ret d) s
      = (Return (Part005.Result_unwrapOr r d), s).
Proof.
  intros St T U E r f g h d s.
  split; [| split; [| split]]; destruct r as [v | e]; try reflexivity.
  simpl. unfold Part005.OkImpl.map, Part005.OkImpl.match_, bind.
  destruct (f v s) as [[u | y] s']; reflexivity.
Qed.

(** ** The error side *)

(** X18. The laws of [map] hold for [mapErr] on the error side: the
    identity, composition, and [orElse] with [err] gives the Result back.
    [map] and [mapErr] commute.  [map(f)] is [andThen] of [ok] after [f],
    and [mapErr(g)] is [orElse] of [err] after [g]; the last one holds in
    part_006 for every [g], and in part_005 for a [g] that does not
    throw. *)
Theorem error_side_laws :
  ∀ (St T U E F G : Type) (r : Result T E) (f : T → U) (g : E → F)
    (g' : F → G) (k : T → Eff St U) (j : E → Eff St F) (s : St),
    Part005.Result_mapErr r (pure (λ x, x)) s = (Return r, s) ∧
    (r1 <- Part005.Result_mapErr r (pure g) ;; Part005.Result_mapErr r1 (pure g')) s
      = Part005.Result_mapErr r (pure (λ x, g' (g x))) s ∧
    Part005.Result_orElse r (pure Part005.err) s = (Return r, s) ∧
    Part006.Result_orElse r (pure Part006.err) s = (Return r, s) ∧
    (r1 <- Part005.Result_map r (pure f) ;; Part005.Result_mapErr r1 (pure g)) s
      = (r1 <- Part005.Result_mapErr r (pure g) ;; Part005.Result_map r1 (pure f)) s ∧
    Part005.Result_map r k s
      = Part005.Result_andThen r (λ x, u <- k x ;; ret (Part005.ok u)) s ∧
    Part006.Result_mapErr r j s
      = Part006.Result_orElse r (λ x, e <- j x ;; ret (Part006.err e)) s ∧
    Part005.Result_mapErr r (pure g) s
      = Part005.Result_orElse r (λ x, e <- pure g x ;; ret (Part005.err e)) s.
Proof.
  intros St T U E F G r f g g' k j s.
  repeat split; destruct r; reflexivity.
Qed.

(** ** The two files side by side *)

(** X19. Every free function that part_006 defines behaves as the function
    of the same name in part_005, on every input and from every world:
    [tryCatch], [tryCatchAsync], [fromPromise], [combine],
    [combineWithAllErrors], [fromNullable], [sequence], [parallel],
    [traverse] and [traverseAsync]. *)
Theorem part_006_functions_agree_with_part_005 :
  ∀ (St T U E : Type) (thunk : Eff St T) (athunk : Eff St (Promise T))
    (p : Promise T) (errorHandler : option (JsValue → Eff St JsValue))
    (rs : list (Result T E)) (value : JsValue) (error : E)
    (operations : list (Eff St (Promise (Result T E)))) (order : list nat)
    (items : list U) (fn : U → Eff St (Result T E))
    (afn : U → Eff St (Promise (Result T E))) (s : St),
    Part006.tryCatch thunk errorHandler s = Part005.tryCatch thunk errorHandler s ∧
    Part006.tryCatchAsync athunk errorHandler s
      = Part005.tryCatchAsync athunk errorHandler s ∧
    Part006.fromPromise p errorHandler s = Part005.fromPromise p errorHandler s ∧
    Part006.combine rs = Part005.combine rs ∧
    Part006.combineWithAllErrors rs = Part005.combineWithAllErrors rs ∧
    Part006.fromNullable value error = Part005.fromNullable value error ∧
    Part006.sequence operations s = Part005.sequence operations s ∧
    Part006.parallel operations order s = Part005.parallel operations order s ∧
    Part006.traverse items fn s = Part005.traverse items fn s ∧
    Part006.traverseAsync items afn s = Part005.traverseAsync items afn s.
Proof.
  intros.
  split; [reflexivity |]. split; [reflexivity |]. split; [reflexivity |].
  split; [reflexivity |]. split; [reflexivity |]. split; [reflexivity |].
  split; [unfold Part006.sequence, Part005.sequence; f_equal |].
  split.
  { unfold Part006.parallel, Part005.parallel.
    destruct (Array_map (λ op, op) operations s) as [[promises | x] s'];
      [| reflexivity].
    destruct (Promise_all promises order) as [[results | reason] |];
      reflexivity. }
  split; [unfold Part006.traverse, Part005.traverse; f_equal |].
  unfold Part006.traverseAsync, Part005.traverseAsync; f_equal.
Qed.

(** ** isResult *)



(** ** Promise.all and parallel when a promise rejects *)

Section PromiseAllRejecting.
Context {A : Type} (promises : list (Promise A)) (j : nat) (reason0 : JsValue).
Hypothesis Hrejects : promises !! j = Some (Rejected reason0).

Lemma count_empty_pos (slots : list (option A)) i :
  slots !! i = Some None → 0 < count_empty slots.
Proof.
  revert i. induction slots as [| o slots IH]; intros [| i] H; try discriminate.
  - simpl in H. injection H as ->. simpl. lia.
  - simpl in H. destruct o; simpl; [eapply IH, H | lia].
Qed.

Lemma settled_sticky st i p :
  settled st = Some p → settled (settle promises st i) = Some p.
Proof.
  intros Hs. unfold settle.
  destruct (promises !! i) as [[x | reason] |]; [| | assumption].
  - unfold resolveElement. destruct (values st !! i) as [[y |] |]; try assumption.
    simpl. now rewrite Hs.
  - unfold rejectElement. now rewrite Hs.
Qed.

Lemma settled_sticky_run order st p :
  settled st = Some p → settled (foldl (settle promises) st order) = Some p.
Proof.
  revert st. induction order as [| i order IH]; intros st Hs; [assumption |].
  simpl. apply IH. now apply settled_sticky.
Qed.

(** While the slot of the rejecting input is empty nothing resolves the
    returned promise. *)
Lemma settle_stays_pending st i x :
  remaining st = count_empty (values st) →
  values st !! j = Some None →
  settled st = None →
  promises !! i = Some (Fulfilled x) →
  remaining (settle promises st i) = count_empty (values (settle promises st i)) ∧
  values (settle promises st i) !! j = Some None ∧
  settled (settle promises st i) = None.
Proof using Hrejects.
  intros Hrem Hj Hs Hi. unfold settle. rewrite Hi. unfold resolveElement.
  destruct (values st !! i) as [[y |] |] eqn:Hslot; [auto | | auto].
  assert (i ≠ j) as Hne by (intros ->; congruence).
  pose proof (count_empty_insert (values st) i x Hslot) as Hcount.
  assert (<[i := Some x]> (values st) !! j = Some None) as Hj'
    by (now rewrite list_lookup_insert_ne).
  pose proof (count_empty_pos _ _ Hj') as Hpos.
  simpl. rewrite Hs. repeat split; [lia | assumption |].
  destruct (decide (pred (remaining st) = 0)); [lia | reflexivity].
Qed.

Lemma rejecting_run order st :
  remaining st = count_empty (values st) →
  values st !! j = Some None →
  settled st = None →
  settled (foldl (settle promises) st order)
  = Rejected <$> first_rejection promises order.
Proof using Hrejects.
  revert st. induction order as [| i order IH]; intros st Hrem Hj Hs;
    [assumption |].
  simpl. destruct (promises !! i) as [[x | reason] |] eqn:Hi.
  - destruct (settle_stays_pending st i x Hrem Hj Hs Hi) as (? & ? & ?).
    now apply IH.
  - apply settled_sticky_run. unfold settle. rewrite Hi.
    unfold rejectElement. now rewrite Hs.
  - unfold settle at 2. rewrite Hi. now apply IH.
Qed.

Lemma Promise_all_rejecting order :
  Promise_all promises order = Rejected <$> first_rejection promises order.
Proof using Hrejects.
  unfold Promise_all. apply lookup_lt_Some in Hrejects as Hlt.
  apply rejecting_run; unfold Promise_all_start; simpl.
  - now rewrite count_empty_replicate.
  - now apply lookup_replicate_2.
  - destruct (decide (length promises = 0)); [lia | reflexivity].
Qed.

End PromiseAllRejecting.

(** X21. When one of the promises handed to [Promise.all] rejects, the
    result never fulfils: it rejects with the reason of the first promise
    to reject in the order of settlement, and stays pending if no rejecting
    promise settles.  So [parallel], once every operation has handed back
    its promise, rejects in the same way, also when another operation has
    produced an [Err]: a rejection is not turned into a Result. *)
Theorem parallel_rejects_with_first_rejection :
  ∀ (St T E : Type) (operations : list (Eff St (Promise (Result T E))))
    (promises : list (Promise (Result T E))) (order : list nat)
    (j : nat) (reason0 : JsValue) (s s' : St),
    Array_map (λ op, op) operations s = (Return promises, s') →
    promises !! j = Some (Rejected reason0) →
    Promise_all promises order = Rejected <$> first_rejection promises order ∧
    Part005.parallel operations order s
      = (Rejected <$> first_rejection promises order, s').
Proof.
  intros St T E operations promises order j reason0 s s' Hmap Hj.
  pose proof (Promise_all_rejecting promises j reason0 Hj order) as Hall.
  split; [assumption |].
  unfold Part005.parallel. rewrite Hmap, Hall.
  destruct (first_rejection promises order); reflexivity.
Qed.

(** The first operation produces an [Err], the second one rejects: the
    promise of [parallel] rejects. *)
Lemma parallel_rejects_with_first_rejection_witness :
  let operations : list (Eff nat (Promise (Result Z string))) :=
    [counting_op (Err "e"); (λ calls, (Return (Rejected (JsStr "no")), S calls));
     counting_op (Ok 3%Z)] in
  let promises : list (Promise (Result Z string)) :=
    [Fulfilled (Err "e"); Rejected (JsStr "no"); Fulfilled (Ok 3%Z)] in
  Promise_all promises [0; 2; 1]
    = Rejected <$> first_rejection promises [0; 2; 1] ∧
  Part005.parallel operations [0; 2; 1] 0
    = (Rejected <$> first_rejection promises [0; 2; 1], 3).
Proof.
  intros operations promises.
  apply (parallel_rejects_with_first_rejection nat Z string operations promises
           [0; 2; 1] 1 (JsStr "no") 0 3); reflexivity.
Defined.

(** ** unwrapOrThrow and toPromise at the boundary *)


(** ** The two classes side by side *)

(** X23. Apart from [orElse] on an [Err], every method of the two classes
    of part_006 behaves as the method of the same name in part_005;
    [orElse] on an [Err] does too whenever the handler returns. *)
Theorem part_006_methods_agree_with_part_005 :
  ∀ (St T U E F : Type) (SE : Stringifiable E) (value d : T) (error : E)
    (mapfn : T → Eff St U) (errfn : E → Eff St F)
    (bindfn : T → Eff St (Result U E)) (elsefn : E → Eff St (Result T F))
    (onok : T → Eff St U) (onerr : E → Eff St U) (orfn : E → Eff St T)
    (msg : string) (s : St),
    Part006.OkImpl.map (E := E) value mapfn s = Part005.OkImpl.map value mapfn s ∧
    Part006.OkImpl.mapErr value errfn s = Part005.OkImpl.mapErr value errfn s ∧
    Part006.OkImpl.andThen value bindfn s = Part005.OkImpl.andThen value bindfn s ∧
    Part006.OkImpl.orElse value elsefn s = Part005.OkImpl.orElse value elsefn s ∧
    Part006.OkImpl.match_ value onok onerr s
      = Part005.OkImpl.match_ value onok onerr s ∧
    Part006.OkImpl.unwrap value = Part005.OkImpl.unwrap value ∧
    Part006.OkImpl.unwrapOr value d = Part005.OkImpl.unwrapOr value d ∧
    Part006.OkImpl.unwrapOrElse value orfn s
      = Part005.OkImpl.unwrapOrElse value orfn s ∧
    Part006.OkImpl.expect value msg = Part005.OkImpl.expect value msg ∧
    Part006.ErrImpl.map error mapfn s = Part005.ErrImpl.map error mapfn s ∧
    Part006.ErrImpl.mapErr (T := T) error errfn s
      = Part005.ErrImpl.mapErr error errfn s ∧
    Part006.ErrImpl.andThen error bindfn s
      = Part005.ErrImpl.andThen error bindfn s ∧
    Part006.ErrImpl.match_ (T := T) error onok onerr s
      = Part005.ErrImpl.match_ error onok onerr s ∧
    Part006.ErrImpl.unwrap (T := T) error = Part005.ErrImpl.unwrap error ∧
    Part006.ErrImpl.unwrapOr error d = Part005.ErrImpl.unwrapOr error d ∧
    Part006.ErrImpl.unwrapOrElse error orfn s
      = Part005.ErrImpl.unwrapOrElse error orfn s ∧
    Part006.ErrImpl.expect (T := T) error msg
      = Part005.ErrImpl.expect error msg ∧
    (∀ r s', elsefn error s = (Return r, s') →
       Part006.ErrImpl.orElse error elsefn s
       = Part005.ErrImpl.orElse error elsefn s).
Proof.
  intros. repeat (split; [reflexivity |]).
  intros r s' H.
  unfold Part006.ErrImpl.orElse, Part005.ErrImpl.orElse, try_catch.
  now rewrite H.
Qed.

(** * The error page helpers *)

(** ** groupVendorFrames *)

Lemma groupVendorFrames_loop_frames frames result vg :
  concat (item_frames <$> (ErrorPage.groupVendorFrames_loop result vg frames).1)
    ++ (ErrorPage.groupVendorFrames_loop result vg frames).2
  = concat (item_frames <$> result) ++ vg ++ frames.
Proof.
  revert result vg. induction frames as [| frame rest IH]; intros result vg.
  - simpl. now rewrite app_nil_r.
  - simpl. destruct (ErrorPage.isVendor frame).
    + rewrite IH, <- app_assoc. reflexivity.
    + rewrite IH. destruct vg as [| f vg]; simpl.
      * rewrite fmap_app, concat_app. simpl. now rewrite <- app_assoc.
      * rewrite !fmap_app, !concat_app. simpl.
        rewrite app_nil_r, <- !app_assoc. reflexivity.
Qed.

Lemma groupVendorFrames_loop_ok frames result vg :
  Forall item_ok result →
  Forall (λ f, ErrorPage.isVendor f = true) vg →
  Forall item_ok (ErrorPage.groupVendorFrames_loop result vg frames).1 ∧
  Forall (λ f, ErrorPage.isVendor f = true)
    (ErrorPage.groupVendorFrames_loop result vg frames).2.
Proof.
  revert result vg. induction frames as [| frame rest IH]; intros result vg Hr Hg.
  - now split.
  - simpl. destruct (ErrorPage.isVendor frame) eqn:Hv.
    + apply IH; [assumption |]. apply Forall_app. split; [assumption |].
      now constructor.
    + apply IH; [| constructor]. apply Forall_app. split.
      * destruct vg as [| f vg]; simpl; [assumption |].
        apply Forall_app. split; [assumption |].
        constructor; [| constructor]. now repeat split.
      * constructor; [exact Hv | constructor].
Qed.

Lemma groups_apart_snoc items item p :
  groups_apart p (items ++ [item])
  = groups_apart p items && negb (ends_in_group p items && is_group item).
Proof.
  revert p. induction items as [| x items IH]; intros p; simpl.
  - now rewrite andb_true_r.
  - rewrite IH. now rewrite andb_assoc.
Qed.

Lemma ends_in_group_snoc items item p :
  ends_in_group p (items ++ [item]) = is_group item.
Proof.
  revert p. induction items as [| x items IH]; intros p; simpl; [reflexivity |].
  apply IH.
Qed.

Lemma groupVendorFrames_loop_apart frames result vg :
  groups_apart false result = true →
  ends_in_group false result = false →
  groups_apart false (ErrorPage.groupVendorFrames_loop result vg frames).1 = true ∧
  ends_in_group false (ErrorPage.groupVendorFrames_loop result vg frames).1 = false.
Proof.
  revert result vg. induction frames as [| frame rest IH]; intros result vg Ha He.
  - now split.
  - simpl. destruct (ErrorPage.isVendor frame); [now apply IH |].
    apply IH.
    + rewrite groups_apart_snoc. simpl. rewrite andb_false_r, andb_true_r.
      destruct (bool_decide (0 < length vg)); [| assumption].
      rewrite groups_apart_snoc, Ha, He. reflexivity.
    + apply ends_in_group_snoc.
Qed.

Lemma groups_apart_lookup items p i a b :
  groups_apart p items = true →
  items !! i = Some a → items !! S i = Some b →
  is_group a = true → is_group b = false.
Proof.
  revert p i. induction items as [| x items IH]; intros p i Hap Ha Hb Hg;
    [discriminate |].
  simpl in Hap. apply andb_true_iff in Hap as [_ Hrest].
  destruct i as [| i].
  - injection Ha as ->. destruct items as [| y items]; [discriminate |].
    injection Hb as ->. simpl in Hrest. rewrite Hg in Hrest. simpl in Hrest.
    apply andb_true_iff in Hrest as [Hrest _].
    now apply negb_true_iff in Hrest.
  - exact (IH _ _ Hrest Ha Hb Hg).
Qed.

(** X24. [groupVendorFrames] loses no frame and keeps their order: the
    frames of the items, read one item after the other, are the input.  A
    frame that stands alone is not a vendor frame; a group is not empty,
    holds vendor frames only, and its [count] is their number.  A group is
    never followed by another group: each one holds a whole run of vendor
    frames. *)
Theorem groupVendorFrames_groups_whole_runs :
  ∀ (frames : list ErrorPage.StackFrame),
    concat (item_frames <$> ErrorPage.groupVendorFrames frames) = frames ∧
    Forall item_ok (ErrorPage.groupVendorFrames frames) ∧
    (∀ i a b,
       ErrorPage.groupVendorFrames frames !! i = Some a →
       ErrorPage.groupVendorFrames frames !! S i = Some b →
       is_group a = true → is_group b = false).
Proof.
  intros frames. unfold ErrorPage.groupVendorFrames.
  pose proof (groupVendorFrames_loop_frames frames [] []) as Hf.
  destruct (groupVendorFrames_loop_ok frames [] []) as [Hok Hv];
    [constructor | constructor |].
  destruct (groupVendorFrames_loop_apart frames [] []) as [Ha He];
    [reflexivity | reflexivity |].
  destruct (ErrorPage.groupVendorFrames_loop [] [] frames) as [result vg].
  simpl in *. destruct vg as [| f vg]; simpl.
  - rewrite app_nil_r in Hf. split; [assumption |]. split; [assumption |].
    intros i a b. now apply groups_apart_lookup with (p := false).
  - split; [| split].
    + rewrite fmap_app, concat_app. simpl. now rewrite app_nil_r.
    + apply Forall_app. split; [assumption |].
      constructor; [| constructor]. now repeat split.
    + intros i a b. apply groups_apart_lookup with (p := false).
      rewrite groups_apart_snoc, Ha, He. reflexivity.
Qed.

(** ** escapeHtml *)

Lemma string_app_cons a (x y : string) : String a x +:+ y = String a (x +:+ y).
Proof. reflexivity. Qed.

Lemma string_app_assoc (x y z : string) : (x +:+ y) +:+ z = x +:+ (y +:+ z).
Proof.
  induction x as [| a x IH]; [reflexivity |].
  rewrite !string_app_cons. now f_equal.
Qed.

Lemma replace_all_app c r (x y : string) :
  ErrorPage.replace_all c r (x +:+ y)
  = ErrorPage.replace_all c r x +:+ ErrorPage.replace_all c r y.
Proof.
  induction x as [| a x IH]; [reflexivity |].
  rewrite string_app_cons. simpl.
  destruct (Ascii.eqb a c); rewrite IH; [now rewrite string_app_assoc |].
  reflexivity.
Qed.

Lemma escapeHtml_app (x y : string) :
  ErrorPage.escapeHtml (x +:+ y)
  = ErrorPage.escapeHtml x +:+ ErrorPage.escapeHtml y.
Proof. unfold ErrorPage.escapeHtml. now rewrite !replace_all_app. Qed.

Lemma escapeHtml_char (a : ascii) :
  ErrorPage.escapeHtml (String a EmptyString) = escape_char a.
Proof.
  unfold ErrorPage.escapeHtml, escape_char. simpl.
  destruct (Ascii.eqb a "&") eqn:H1; [reflexivity |]. simpl.
  destruct (Ascii.eqb a "<") eqn:H2; [reflexivity |]. simpl.
  destruct (Ascii.eqb a ">") eqn:H3; [reflexivity |]. simpl.
  destruct (Ascii.eqb a "034") eqn:H4; [reflexivity |]. simpl.
  destruct (Ascii.eqb a "'") eqn:H5; reflexivity.
Qed.

Lemma occurs_app c (x y : string) :
  occurs c (x +:+ y) = occurs c x || occurs c y.
Proof.
  induction x as [| a x IH]; [reflexivity |].
  rewrite string_app_cons. simpl. now rewrite IH, orb_assoc.
Qed.

Lemma escape_char_clean (a : ascii) :
  occurs "<" (escape_char a) = false ∧ occurs ">" (escape_char a) = false ∧
  occurs "034" (escape_char a) = false ∧ occurs "'" (escape_char a) = false.
Proof.
  unfold escape_char.
  destruct (Ascii.eqb a "&") eqn:H1; [repeat split |].
  destruct (Ascii.eqb a "<") eqn:H2; [repeat split |].
  destruct (Ascii.eqb a ">") eqn:H3; [repeat split |].
  destruct (Ascii.eqb a "034") eqn:H4; [repeat split |].
  destruct (Ascii.eqb a "'") eqn:H5; [repeat split |].
  simpl. rewrite H2, H3, H4, H5. repeat split.
Qed.

(** X25. The five replacements of [escapeHtml] do not touch each other's
    output: the result is the input with each character escaped on its
    own, so escaping a concatenation is concatenating the escaped parts.
    The result holds no [<], no [>], no double quote and no apostrophe. *)
Theorem escapeHtml_escapes_each_character :
  ∀ (str x y : string),
    ErrorPage.escapeHtml str = escape_each str ∧
    ErrorPage.escapeHtml (x +:+ y)
      = ErrorPage.escapeHtml x +:+ ErrorPage.escapeHtml y ∧
    occurs "<" (ErrorPage.escapeHtml str) = false ∧
    occurs ">" (ErrorPage.escapeHtml str) = false ∧
    occurs "034" (ErrorPage.escapeHtml str) = false ∧
    occurs "'" (ErrorPage.escapeHtml str) = false.
Proof.
  intros str x y.
  assert (∀ t, ErrorPage.escapeHtml t = escape_each t) as Heach.
  { induction t as [| a t IH]; [reflexivity |].
    change (String a t) with (String a EmptyString +:+ t).
    rewrite escapeHtml_app, escapeHtml_char, IH. reflexivity. }
  split; [apply Heach |]. split; [apply escapeHtml_app |].
  rewrite Heach. clear Heach.
  induction str as [| a str (IH1 & IH2 & IH3 & IH4)]; [repeat split |].
  destruct (escape_char_clean a) as (H1 & H2 & H3 & H4).
  simpl. rewrite !occurs_app, H1, H2, H3, H4, IH1, IH2, IH3, IH4.
  repeat split.
Qed.
